(** * A shallow embedding of [regex.py]: the state graph, the pattern
      compiler [RegexFSM.__init__] and the backtracking matcher
      [RegexFSM.check_string].

    Python objects live in a heap (an arena): an object reference is the index
    of the object in the arena, so the identity test [is] is equality of
    indices, and two references to one object see each other's updates.
    Python code is translated into a state-and-exception monad over that
    heap. *)

From Stdlib Require Import NArith String Ascii Lia.
From stdpp Require Import base list relations.

Open Scope nat_scope.

(** ** Data model *)

(** A one-character Python [str] is its Unicode code point. *)
Definition char := N.
Abbreviation ref := nat (only parsing).

Definition sym_dot : char := 46%N.
Definition sym_star : char := 42%N.
Definition sym_plus : char := 43%N.

(** A string literal of ASCII characters as a Python [str]. *)
Definition py_str (s : string) : list char :=
  List.map N_of_ascii (list_ascii_of_string s).

(** The class of an object together with the attributes fixed by its
    [__init__]: [curr_sym] of [AsciiState], [inner] of [StarState] and
    [PlusState]. *)
Inductive kind :=
| StartState
| TerminationState
| DotState
| AsciiState (curr_sym : char)
| StarState (inner : ref)
| PlusState (inner : ref).

(** An object: its class and its mutable attribute [next_states]. *)
Record State := mkState { cls : kind; next_states : list ref }.

Abbreviation heap := (list State) (only parsing).

(** The exceptions the code can raise. [ValueError] is the "Nothing to
    repeat" error of line 114 (the dangling quantifier), [AttributeError] the
    "Unsupported character" error of line 134. [IndexError] is what [pop] and
    [[-1]] raise on an empty list, [RecursionError] what the interpreter
    raises when the call stack is exhausted. [InvalidRef] has no Python
    counterpart: it is the outcome of following an index that is not in the
    arena, which no Python reference can be. *)
Inductive exn :=
| ValueError (c : char) (pos : nat)
| AttributeError (c : char)
| IndexError
| RecursionError
| InvalidRef.

Inductive result (A : Type) :=
| Ok (a : A)
| Raise (e : exn).
Arguments Ok {A} a.
Arguments Raise {A} e.

(** ** The heap monad *)

Definition M (A : Type) : Type := heap → result A * heap.

Definition ret {A} (a : A) : M A := fun h => (Ok a, h).
Definition raise {A} (e : exn) : M A := fun h => (Raise e, h).
Definition bind {A B} (m : M A) (f : A → M B) : M B :=
  fun h => match m h with
           | (Ok a, h') => f a h'
           | (Raise e, h') => (Raise e, h')
           end.

Notation "'let*' x ':=' m 'in' k" := (bind m (fun x => k))
  (at level 10, x name, m at level 100, k at level 200).

(** [State.__init__]: a new object of the given class, [next_states = []]. *)
Definition alloc (k : kind) : M ref :=
  fun h => (Ok (length h), h ++ [mkState k []]).

Definition get_cls (r : ref) : M kind :=
  fun h => match h !! r with
           | Some o => (Ok (cls o), h)
           | None => (Raise InvalidRef, h)
           end.

(** [r.next_states] *)
Definition get_next (r : ref) : M (list ref) :=
  fun h => match h !! r with
           | Some o => (Ok (next_states o), h)
           | None => (Raise InvalidRef, h)
           end.

(** [r.next_states = l], and an in-place update of the list object. *)
Definition set_next (r : ref) (l : list ref) : M unit :=
  fun h => match h !! r with
           | Some o => (Ok tt, <[r := mkState (cls o) l]> h)
           | None => (Raise InvalidRef, h)
           end.

(** [r.next_states.append(x)] *)
Definition append_next (r x : ref) : M unit :=
  let* l := get_next r in set_next r (l ++ [x]).

(** ** The state classes *)

(** [StarState.__init__] (lines 58-62). *)
Definition new_StarState (inner : ref) : M ref :=
  let* self := alloc (StarState inner) in
  let* _ := append_next inner self in
  let* _ := set_next self [inner] in
  ret self.

(** [PlusState.__init__] (lines 72-76). *)
Definition new_PlusState (inner : ref) : M ref :=
  let* self := alloc (PlusState inner) in
  let* _ := append_next inner self in
  let* _ := set_next self [inner] in
  ret self.

(** [check_self], dispatched on the class of the receiver. [depth] is the
    number of nested calls of [check_self] and [dfs] that the stack still
    has room for; what the interpreter needs of the stack inside one call
    is not counted. *)
Fixpoint check_self (depth : nat) (state : ref) (c : char) : M bool :=
  match depth with
  | 0 => raise RecursionError
  | S d =>
      let* k := get_cls state in
      match k with
      | StartState => ret false
      | TerminationState => ret false
      | DotState => ret true
      | AsciiState curr_sym => ret (N.eqb c curr_sym)
      | StarState inner => check_self d inner c
      | PlusState inner => check_self d inner c
      end
  end.

(** ** The compiler, [RegexFSM.__init__] *)

(** [c in "*+"] for a one-character [c]. *)
Definition is_quantifier (c : char) : bool :=
  N.eqb c sym_star || N.eqb c sym_plus.

(** [c.isascii()] for a one-character [c]. *)
Definition isascii (c : char) : bool := N.ltb c 128.

(** The local variables [states_chain] and [preds]. Both are used as stacks
    ([append], [pop], [[-1]]): the head of the Rocq list is the last element
    of the Python list. *)
Record locals := mkLocals {
  states_chain : list ref;
  preds : list (option ref)
}.

Fixpoint replace_first (inner node : ref) (l : list ref) : list ref :=
  match l with
  | [] => []
  | nxt :: t =>
      if Nat.eqb nxt inner then node :: t else nxt :: replace_first inner node t
  end.

(** Lines 122-125: the scan of [parent.next_states[::-1]] that overwrites
    entry [-idx], the last entry that is [inner], and breaks. *)
Definition replace_last (inner node : ref) (l : list ref) : list ref :=
  rev (replace_first inner node (rev l)).

(** Line 127: [[node if x is inner else x for x in ...]]. *)
Definition replace_all (inner node : ref) (l : list ref) : list ref :=
  List.map (fun x => if Nat.eqb x inner then node else x) l.

(** Lines 112-131, the branch of a quantifier character. *)
Definition quantifier_branch (start : ref) (c : char) (i : nat) (v : locals)
  : M locals :=
  if length (states_chain v) <? 2 then raise (ValueError c i) else
  match states_chain v with
  | [] => raise IndexError
  | inner :: chain' =>
      match preds v with
      | [] => raise IndexError
      | parent :: preds' =>
          let* node := (if N.eqb c sym_star then new_StarState inner
                        else new_PlusState inner) in
          let* _ :=
            match parent with
            | Some p =>
                let* l := get_next p in
                set_next p (replace_last inner node l)
            | None =>
                let* l := get_next start in
                set_next start (replace_all inner node l)
            end in
          ret (mkLocals (node :: chain') (parent :: preds'))
      end
  end.

(** Lines 136-139, after a wildcard or a literal has been created. *)
Definition push_unit (node : ref) (v : locals) : M locals :=
  match states_chain v with
  | [] => raise IndexError
  | parent :: _ =>
      let* _ := append_next parent node in
      ret (mkLocals (node :: states_chain v) (Some parent :: preds v))
  end.

(** One iteration of the [while] loop (lines 104-141). *)
Definition loop_body (start : ref) (c : char) (i : nat) (v : locals)
  : M locals :=
  if N.eqb c sym_dot then
    let* node := alloc DotState in push_unit node v
  else if isascii c && negb (is_quantifier c) then
    let* node := alloc (AsciiState c) in push_unit node v
  else if is_quantifier c then
    quantifier_branch start c i v
  else
    raise (AttributeError c).

(** The loop from position [i], over the characters still to be read. *)
Fixpoint loop (start : ref) (rest : list char) (i : nat) (v : locals)
  : M locals :=
  match rest with
  | [] => ret v
  | c :: rest' =>
      let* v' := loop_body start c i v in
      loop start rest' (S i) v'
  end.

Record RegexFSM := mkRegexFSM {
  start : ref;
  final : ref;
  start_state : ref
}.

Definition RegexFSM_init (regex_expr : list char) : M RegexFSM :=
  let* start := alloc StartState in
  let* v := loop start regex_expr 0 (mkLocals [start] [None]) in
  let* term := alloc TerminationState in
  match states_chain v with
  | [] => raise IndexError
  | parent :: _ =>
      let* _ := append_next parent term in
      ret (mkRegexFSM start term start)
  end.

(** ** The matcher, [RegexFSM.check_string] *)

Definition is_Termination (k : kind) : bool :=
  match k with TerminationState => true | _ => false end.

(** [isinstance(state, (StarState, PlusState))] *)
Definition is_Repeat (k : kind) : bool :=
  match k with StarState _ | PlusState _ => true | _ => false end.

(** [for nxt in l: if f(nxt): return True]; the result tells whether the
    loop returned. *)
Fixpoint for_any (f : ref → M bool) (l : list ref) : M bool :=
  match l with
  | [] => ret false
  | nxt :: t => let* b := f nxt in if b then ret true else for_any f t
  end.

(** The inner function [dfs] (lines 153-164), with room on the stack for
    [depth] nested calls of [dfs] and [check_self]. *)
Fixpoint dfs (depth : nat) (s : list char) (state : ref) (idx : nat)
  : M bool :=
  match depth with
  | 0 => raise RecursionError
  | S d =>
      let* k := get_cls state in
      if is_Termination k then ret (idx =? length s) else
      let* hit :=
        match s !! idx with
        | Some ch =>
            let* ok := check_self d state ch in
            if ok then
              let* nxts := get_next state in
              for_any (fun nxt => dfs d s nxt (idx + 1)) nxts
            else ret false
        | None => ret false
        end in
      if hit then ret true else
      if is_Repeat k then
        let* nxts := get_next state in
        for_any (fun nxt => dfs d s nxt idx) nxts
      else ret false
  end.

Definition check_string (depth : nat) (self : RegexFSM) (s : list char)
  : M bool :=
  let* nxts := get_next (start self) in
  for_any (fun nxt => dfs depth s nxt 0) nxts.

(** Compile a pattern in an empty heap, then match a string against it. *)
Definition compile (regex_expr : list char) : result RegexFSM * heap :=
  RegexFSM_init regex_expr [].

Definition matches (depth : nat) (regex_expr s : list char) : result bool :=
  match compile regex_expr with
  | (Ok fsm, h) => fst (check_string depth fsm s h)
  | (Raise e, _) => Raise e
  end.

(** ** The matcher as a function of the heap

    [check_self], [dfs] and [check_string] only read the heap. Their
    read-only forms below take the heap as an argument and return the result
    alone; [check_self_run], [dfs_run] and [check_string_run] show that the
    monadic functions compute exactly these results. *)

Definition rbind {A B} (m : result A) (f : A → result B) : result B :=
  match m with
  | Ok a => f a
  | Raise e => Raise e
  end.

Notation "'let+' x ':=' m 'in' k" := (rbind m (fun x => k))
  (at level 10, x name, m at level 100, k at level 200).

Section ReadOnly.
Variable h : heap.

Definition cls_of (r : ref) : result kind :=
  match h !! r with
  | Some o => Ok (cls o)
  | None => Raise InvalidRef
  end.

Definition next_of (r : ref) : result (list ref) :=
  match h !! r with
  | Some o => Ok (next_states o)
  | None => Raise InvalidRef
  end.

Fixpoint check_self_ro (depth : nat) (state : ref) (c : char)
  : result bool :=
  match depth with
  | 0 => Raise RecursionError
  | S d =>
      let+ k := cls_of state in
      match k with
      | StartState => Ok false
      | TerminationState => Ok false
      | DotState => Ok true
      | AsciiState curr_sym => Ok (N.eqb c curr_sym)
      | StarState inner => check_self_ro d inner c
      | PlusState inner => check_self_ro d inner c
      end
  end.

Fixpoint for_any_ro (f : ref → result bool) (l : list ref) : result bool :=
  match l with
  | [] => Ok false
  | nxt :: t => let+ b := f nxt in if b then Ok true else for_any_ro f t
  end.

Fixpoint dfs_ro (depth : nat) (s : list char) (state : ref) (idx : nat)
  : result bool :=
  match depth with
  | 0 => Raise RecursionError
  | S d =>
      let+ k := cls_of state in
      if is_Termination k then Ok (idx =? length s) else
      let+ hit :=
        match s !! idx with
        | Some ch =>
            let+ ok := check_self_ro d state ch in
            if ok then
              let+ nxts := next_of state in
              for_any_ro (fun nxt => dfs_ro d s nxt (idx + 1)) nxts
            else Ok false
        | None => Ok false
        end in
      if hit then Ok true else
      if is_Repeat k then
        let+ nxts := next_of state in
        for_any_ro (fun nxt => dfs_ro d s nxt idx) nxts
      else Ok false
  end.

Definition check_string_ro (depth : nat) (self : RegexFSM) (s : list char)
  : result bool :=
  let+ nxts := next_of (start self) in
  for_any_ro (fun nxt => dfs_ro depth s nxt 0) nxts.
End ReadOnly.


(** [returns p s b]: with a stack that is deep enough, compiling [p] and
    matching [s] returns [b]. *)
Definition returns (regex_expr s : list char) (b : bool) : Prop :=
  ∃ N, ∀ depth, N ≤ depth → matches depth regex_expr s = Ok b.

(** ** What the search explores

    One move of the search from the pair (state, index): a state that is not
    the termination state either consumes the character at the index, which
    it must accept, and goes to a successor at the next index, or, when it is
    a repeat state, goes to a successor at the same index. *)
Definition move (h : heap) (s : list char) (a b : ref * nat) : Prop :=
  ∃ o, h !! a.1 = Some o ∧ is_Termination (cls o) = false ∧
       b.1 ∈ next_states o ∧
       ((b.2 = a.2 + 1 ∧
         ∃ ch d, s !! a.2 = Some ch ∧ check_self_ro h d a.1 ch = Ok true)
        ∨ (b.2 = a.2 ∧ is_Repeat (cls o) = true)).

(** From one of the successors of [self.start] at index 0 the moves lead to
    a termination state with the index at the length of the text. *)
Definition accepting_run (h : heap) (self : RegexFSM) (s : list char) : Prop :=
  ∃ o nxt t,
    h !! start self = Some o ∧ nxt ∈ next_states o ∧
    rtc (move h s) (nxt, 0) (t, length s) ∧
    cls_of h t = Ok TerminationState.

(** ** Patterns *)

(** A character that makes a unit: the wildcard, or a literal (the test of
    line 109). *)
Definition is_unit (c : char) : bool :=
  N.eqb c sym_dot || (isascii c && negb (is_quantifier c)).

(** No quantifier character directly follows a quantifier character. *)
Fixpoint no_consecutive_quantifiers (p : list char) : bool :=
  match p with
  | c :: rest =>
      negb (is_quantifier c && from_option is_quantifier false (head rest))
      && no_consecutive_quantifiers rest
  | [] => true
  end.

(** Lines 98-141: the state of the compiler after the loop has read all of
    [pre], from the empty heap. *)
Definition compile_prefix (pre : list char) : result locals * heap :=
  (let* start := alloc StartState in
   loop start pre 0 (mkLocals [start] [None])) [].

(** ** Invariants of the compiler *)

(** The heap: references stay inside the arena, a repeat state was created
    after the state it wraps, and a literal stores a character that is
    neither the wildcard nor a quantifier. *)
Record heap_wf (h : heap) : Prop := mk_heap_wf {
  wf_closed : ∀ r o x, h !! r = Some o → x ∈ next_states o → x < length h;
  wf_inner : ∀ r o i,
    h !! r = Some o → cls o = StarState i ∨ cls o = PlusState i → i < r;
  wf_sym : ∀ r o c,
    h !! r = Some o → cls o = AsciiState c →
    N.eqb c sym_dot = false ∧ isascii c = true ∧ is_quantifier c = false
}.

(** The locals: the two stacks have one height, and above the start state
    the recorded parent of the tail is an older state whose last successor
    is the tail. *)
Definition top_ok (h : heap) (v : locals) : Prop :=
  ∃ c cs q ps,
    states_chain v = c :: cs ∧ preds v = q :: ps ∧
    length cs = length ps ∧ c < length h ∧
    (cs ≠ [] →
     ∃ p op l, q = Some p ∧ p < c ∧ h !! p = Some op ∧
               next_states op = l ++ [c]).

(** A successor of a repeat state that is itself a repeat state is younger:
    the moves that consume nothing cannot cycle. *)
Definition skips_ascend (h : heap) : Prop :=
  ∀ r o x ox,
    h !! r = Some o → is_Repeat (cls o) = true → x ∈ next_states o →
    h !! x = Some ox → is_Repeat (cls ox) = true → r < x.

(** The tail of the chain is not a repeat state. *)
Definition plain_top (h : heap) (v : locals) : Prop :=
  ∃ c cs o, states_chain v = c :: cs ∧ h !! c = Some o ∧
            is_Repeat (cls o) = false.

(** A state that is the wildcard, or a repeat state around one. *)
Inductive wraps_dot (h : heap) : ref → Prop :=
| wraps_dot_here r o :
    h !! r = Some o → cls o = DotState → wraps_dot h r
| wraps_dot_inner r o i :
    h !! r = Some o → cls o = StarState i ∨ cls o = PlusState i →
    wraps_dot h i → wraps_dot h r.

(** ** The heap after a step of the compiler *)

(** The heap after a unit of class [k] has been created and appended to the
    tail [parent]. *)
Definition heap_push (k : kind) (parent : ref) (op : State) (h : heap)
  : heap :=
  <[parent := mkState (cls op) (next_states op ++ [length h])]>
    (h ++ [mkState k []]).

(** The heap after a quantifier has wrapped [inner], whose recorded parent
    is [p]. *)
Definition heap_wrap (k : kind) (inner p : ref) (oi op : State) (h : heap)
  : heap :=
  <[p := mkState (cls op) (replace_last inner (length h) (next_states op))]>
    (<[length h := mkState k [inner]]>
       (<[inner := mkState (cls oi) (next_states oi ++ [length h])]>
          (h ++ [mkState k []]))).

Definition repeat_kind (c : char) (inner : ref) : kind :=
  if N.eqb c sym_star then StarState inner else PlusState inner.

(** The class of the unit a wildcard or literal character creates (lines
    106-110). *)
Definition unit_kind (c : char) : kind :=
  if N.eqb c sym_dot then DotState else AsciiState c.

(** The pattern begins with a quantifier character. *)
Definition starts_with_quantifier (p : list char) : bool :=
  from_option is_quantifier false (head p).

(** ** A measure for the search

    The height of a state for the moves that consume nothing: a repeat state
    is above every younger repeat state and above every other state. *)
Definition rank (h : heap) (r : ref) : nat :=
  match h !! r with
  | Some o => if is_Repeat (cls o) then length h - r else 0
  | None => 0
  end.

(** A number of stack frames that suffices for [dfs] at a state and an
    index. *)
Definition dfs_depth (h : heap) (s : list char) (state idx : nat) : nat :=
  (length s - idx) * S (length h) + rank h state + S (length h).

(** ** Forgetting the kind of a repeat state *)

Definition plus_to_star_kind (k : kind) : kind :=
  match k with
  | PlusState inner => StarState inner
  | _ => k
  end.

(** The heap in which every [PlusState] has become a [StarState] around the
    same state, with the same successors. *)
Definition plus_to_star_obj (o : State) : State :=
  mkState (plus_to_star_kind (cls o)) (next_states o).

Definition plus_to_star (h : heap) : heap := plus_to_star_obj <$> h.
Arguments plus_to_star : simpl never.

(** The pattern character with + turned into *. *)
Definition star_of (c : char) : char :=
  if N.eqb c sym_plus then sym_star else c.

(** From the pair (state, index) the moves lead to a termination state with
    the index at the length of the text. *)
Definition accepts_from (h : heap) (s : list char) (r : ref) (i : nat)
  : Prop :=
  ∃ t, rtc (move h s) (r, i) (t, length s) ∧ cls_of h t = Ok TerminationState.

(** ** The language of a pattern

    A pattern is read as a sequence of items: a unit, and whether a
    quantifier follows it. *)
Definition item : Type := kind * bool.

Fixpoint items_of (p : list char) : list item :=
  match p with
  | [] => []
  | u :: rest =>
      match rest with
      | q :: rest' =>
          if is_quantifier q then (unit_kind u, true) :: items_of rest'
          else (unit_kind u, false) :: items_of rest
      | [] => [(unit_kind u, false)]
      end
  end.

(** The characters a state of class [k] accepts when it is not a repeat
    state ([check_self] of [DotState], [AsciiState], [StartState] and
    [TerminationState]). *)
Definition accepts_kind (k : kind) (c : char) : bool :=
  match k with
  | DotState => true
  | AsciiState curr_sym => N.eqb c curr_sym
  | _ => false
  end.

(** The strings of a sequence of items: a unit without quantifier takes one
    character that it accepts, a unit with a quantifier takes any number of
    characters that it accepts, none included. *)
Fixpoint lang (its : list item) (s : list char) : Prop :=
  match its with
  | [] => s = []
  | (k, false) :: r =>
      ∃ c s', s = c :: s' ∧ accepts_kind k c = true ∧ lang r s'
  | (k, true) :: r =>
      ∃ s1 s2, s = s1 ++ s2 ∧ Forall (λ c, accepts_kind k c = true) s1 ∧
               lang r s2
  end.

(** ** The shape of a compiled graph *)

Definition is_plain (k : kind) : bool :=
  match k with
  | StartState | DotState | AsciiState _ => true
  | _ => false
  end.

Fixpoint items_size (its : list item) : nat :=
  match its with
  | [] => 0
  | (_, true) :: r => 2 + items_size r
  | (_, false) :: r => 1 + items_size r
  end.

(** The state through which a sequence of items laid out from index [a] is
    entered; [x] is what follows the sequence. *)
Definition entry (a : nat) (its : list item) (x : ref) : ref :=
  match its with
  | [] => x
  | (_, true) :: _ => S a
  | (_, false) :: _ => a
  end.

(** The items [its] are laid out in the heap from index [a] on, and lead to
    [x]: a unit without quantifier is one state whose successor is the entry
    of what follows; a unit with a quantifier is the unit, whose successor
    is its repeat state, and the repeat state, whose successors are the unit
    and the entry of what follows. *)
Fixpoint chain (h : heap) (a : nat) (its : list item) (x : ref) : Prop :=
  match its with
  | [] => True
  | (k, false) :: r =>
      is_plain k = true ∧
      h !! a = Some (mkState k [entry (S a) r x]) ∧
      chain h (S a) r x
  | (k, true) :: r =>
      is_plain k = true ∧
      h !! a = Some (mkState k [S a]) ∧
      (∃ K, (K = StarState a ∨ K = PlusState a) ∧
            h !! S a = Some (mkState K [a; entry (S (S a)) r x])) ∧
      chain h (S (S a)) r x
  end.

(** The heap in which [x] has been appended to the successors of [top]. *)
Definition close (h : heap) (top : ref) (x : ref) : heap :=
  alter (λ o, mkState (cls o) (next_states o ++ [x])) top h.

(** The effect of one pattern character on the items read so far. *)
Definition star_last (its : list item) : list item :=
  match last its with
  | Some (k, _) => removelast its ++ [(k, true)]
  | None => its
  end.

Definition item_step (its : list item) (c : char) : list item :=
  if is_quantifier c then star_last its else its ++ [(unit_kind c, false)].

(** The state of the compiler when the items read so far are [its]: the
    heap holds the start state followed by the items, the tail of the chain
    is the state created last, and once the tail is given a successor [x]
    the items lead to [x]. *)
Definition built (h : heap) (v : locals) (its : list item) : Prop :=
  length h = S (items_size its) ∧
  length (states_chain v) = S (length its) ∧
  head (states_chain v) = Some (length h - 1) ∧
  (its ≠ [] → head (preds v) = Some (Some (items_size (removelast its)))) ∧
  ∀ x, chain (close h (length h - 1) x) 0 ((StartState, false) :: its) x.

(** The class of the object that pattern character [c] at position [i]
    creates. *)
Definition char_kind (c : char) (i : nat) : kind :=
  if is_quantifier c then repeat_kind c i else unit_kind c.

(** * Properties *)

(** ** The matcher only reads the heap *)

Section ReadOnlyRun.
Variable h : heap.

Lemma get_cls_run r : get_cls r h = (cls_of h r, h).
Proof. unfold get_cls, cls_of. by destruct (h !! r). Qed.

Lemma get_next_run r : get_next r h = (next_of h r, h).
Proof. unfold get_next, next_of. by destruct (h !! r). Qed.

Lemma bind_run {A B} (m : M A) (f : A → M B) a g :
  m h = (a, h) →
  (∀ x, f x h = (g x, h)) →
  bind m f h = (rbind a g, h).
Proof.
  intros Hm Hf. unfold bind. rewrite Hm. destruct a as [x|e]; simpl; auto.
Qed.

Lemma check_self_run depth state c :
  check_self depth state c h = (check_self_ro h depth state c, h).
Proof.
  revert state. induction depth as [|d IH]; intros state; simpl; [done|].
  apply bind_run; [apply get_cls_run|].
  intros [| | | |inner|inner]; auto.
Qed.

Lemma for_any_run f g l :
  (∀ x, f x h = (g x, h)) →
  for_any f l h = (for_any_ro g l, h).
Proof.
  intros Hf. induction l as [|x l IH]; simpl; [done|].
  apply bind_run; [apply Hf|]. intros [|]; auto.
Qed.

Lemma dfs_run depth s state idx :
  dfs depth s state idx h = (dfs_ro h depth s state idx, h).
Proof.
  revert state idx. induction depth as [|d IH]; intros state idx; simpl;
    [done|].
  apply bind_run; [apply get_cls_run|]. intros k.
  destruct (is_Termination k); [done|].
  apply bind_run.
  - destruct (s !! idx) as [ch|]; [|done].
    apply bind_run; [apply check_self_run|]. intros [|]; [|done].
    apply bind_run; [apply get_next_run|]. intros nxts.
    by apply for_any_run.
  - intros [|]; [done|]. destruct (is_Repeat k); [|done].
    apply bind_run; [apply get_next_run|]. intros nxts.
    by apply for_any_run.
Qed.

Lemma check_string_run depth self s :
  check_string depth self s h = (check_string_ro h depth self s, h).
Proof.
  unfold check_string, check_string_ro.
  apply bind_run; [apply get_next_run|]. intros nxts.
  apply for_any_run. intros x. apply dfs_run.
Qed.
End ReadOnlyRun.

(** ** A deeper stack does not change a result *)

Section Monotone.
Variable h : heap.

Lemma check_self_ro_mono d d' state c b :
  check_self_ro h d state c = Ok b → d ≤ d' →
  check_self_ro h d' state c = Ok b.
Proof.
  revert d' state. induction d as [|d IH]; intros d' state; [done|].
  destruct d' as [|d']; [lia|]. simpl. intros H Hle.
  destruct (cls_of h state) as [k|e]; [|done]. simpl in *.
  destruct k; auto; apply IH; auto; lia.
Qed.

Lemma for_any_ro_mono (f g : ref → result bool) l b :
  (∀ x c, x ∈ l → f x = Ok c → g x = Ok c) →
  for_any_ro f l = Ok b → for_any_ro g l = Ok b.
Proof.
  induction l as [|x l IH]; intros Hfg; simpl; [done|].
  destruct (f x) as [c|e] eqn:Hfx; [|done]. simpl.
  rewrite (Hfg x c) by (auto; left). simpl.
  destruct c; [done|]. apply IH. intros y c Hy. apply Hfg. by right.
Qed.

Lemma dfs_ro_mono d d' s state idx b :
  dfs_ro h d s state idx = Ok b → d ≤ d' →
  dfs_ro h d' s state idx = Ok b.
Proof.
  revert d' state idx b.
  induction d as [|d IH]; intros d' state idx b; [done|].
  destruct d' as [|d']; [lia|]. simpl. intros H Hle.
  destruct (cls_of h state) as [k|e]; [|done]. simpl in *.
  destruct (is_Termination k); [done|].
  assert (Hrec : ∀ i l c,
    for_any_ro (λ nxt, dfs_ro h d s nxt i) l = Ok c →
    for_any_ro (λ nxt, dfs_ro h d' s nxt i) l = Ok c).
  { intros i l c. apply for_any_ro_mono. intros x c' _ Hx.
    apply IH; [done|lia]. }
  destruct (s !! idx) as [ch|]; simpl in *.
  - destruct (check_self_ro h d state ch) as [ok|e] eqn:Hok; [|done].
    rewrite (check_self_ro_mono d d' state ch ok) by (auto; lia).
    simpl in *. destruct ok; simpl in *.
    + destruct (next_of h state) as [nxts|e]; [|done]. simpl in *.
      destruct (for_any_ro _ nxts) as [hit|e] eqn:Hhit; [|done].
      rewrite (Hrec _ _ _ Hhit). simpl in *.
      destruct hit; [done|]. destruct (is_Repeat k); [|done].
      simpl in *. by apply Hrec.
    + destruct (is_Repeat k); [|done].
      destruct (next_of h state) as [nxts|e]; [|done]. simpl in *.
      by apply Hrec.
  - destruct (is_Repeat k); [|done].
    destruct (next_of h state) as [nxts|e]; [|done]. simpl in *.
    by apply Hrec.
Qed.

Lemma check_string_ro_mono d d' self s b :
  check_string_ro h d self s = Ok b → d ≤ d' →
  check_string_ro h d' self s = Ok b.
Proof.
  unfold check_string_ro. intros H Hle.
  destruct (next_of h (start self)) as [nxts|e]; [|done]. simpl in *.
  revert H. apply for_any_ro_mono. intros x c _ Hx.
  by apply dfs_ro_mono with d.
Qed.
End Monotone.

Lemma matches_mono d d' regex_expr s b :
  matches d regex_expr s = Ok b → d ≤ d' → matches d' regex_expr s = Ok b.
Proof.
  unfold matches. destruct (compile regex_expr) as [[fsm|e] h]; [|done].
  rewrite !check_string_run. simpl. apply check_string_ro_mono.
Qed.

Lemma returns_at d regex_expr s b :
  matches d regex_expr s = Ok b → returns regex_expr s b.
Proof. intros H. exists d. intros d' Hle. by apply matches_mono with d. Qed.

(** ** Reference behaviour *)

(** C7: the six reference cases of the module's self-test, and the further
    strings the specification lists for pattern a*a. *)
Theorem reference_behaviour :
  returns (py_str "a*a") (py_str "a") true ∧
  returns (py_str "a*a") (py_str "aa") true ∧
  returns (py_str "a*a") (py_str "aaa") true ∧
  returns (py_str "a*4.+hi") (py_str "4uhi") true ∧
  returns (py_str "a*4.+hi") (py_str "meow") false ∧
  returns (py_str "m*..+w") (py_str "meow") true ∧
  returns (py_str "m*..+w") (py_str "meovalw") true ∧
  returns (py_str "m*..+w") (py_str "eow") true.
Proof. repeat split; apply (returns_at 40); vm_compute; reflexivity. Qed.

(** C8: the empty pattern compiles to a start state whose only successor is
    the termination state; the graph accepts the empty string and rejects
    every other string, whatever the depth of the stack (one frame is
    needed). *)
Theorem empty_pattern :
  ∃ fsm h,
    compile [] = (Ok fsm, h) ∧
    cls_of h (start fsm) = Ok StartState ∧
    next_of h (start fsm) = Ok [final fsm] ∧
    cls_of h (final fsm) = Ok TerminationState ∧
    (∀ depth, fst (check_string (S depth) fsm [] h) = Ok true) ∧
    (∀ depth c s, fst (check_string (S depth) fsm (c :: s) h) = Ok false).
Proof.
  eexists _, _. split; [vm_compute; reflexivity|].
  repeat split; intros; rewrite check_string_run; reflexivity.
Qed.

(** ** The matcher leaves the heap as it found it *)

(** C9: whatever the heap, the graph, the string and the depth of the stack,
    and whether the call returns or raises, the heap after [check_string] is
    the heap before it: no [next_states] list, no [curr_sym] and no [inner]
    has changed, and a second call sees the graph the first one saw. *)
Theorem check_string_frame depth self s (h : heap) :
  snd (check_string depth self s h) = h ∧
  ∀ depth' s',
    check_string depth' self s' (snd (check_string depth self s h))
    = check_string depth' self s' h.
Proof.
  rewrite check_string_run. simpl. split; [done|]. intros. done.
Qed.

(** ** Full match *)

Lemma for_any_ro_true (f : ref → result bool) l :
  for_any_ro f l = Ok true → ∃ x, x ∈ l ∧ f x = Ok true.
Proof.
  induction l as [|x l IH]; simpl; [done|].
  destruct (f x) as [[|]|e] eqn:Hfx; simpl; try done.
  - intros _. exists x. split; [left|done].
  - intros H. destruct (IH H) as (y & Hy & Hfy). exists y. split; [by right|done].
Qed.

Lemma dfs_ro_sound (h : heap) depth s state idx :
  dfs_ro h depth s state idx = Ok true →
  ∃ t, rtc (move h s) (state, idx) (t, length s) ∧
       cls_of h t = Ok TerminationState.
Proof.
  revert state idx. induction depth as [|d IH]; intros state idx; [done|].
  simpl. unfold cls_of at 1, next_of.
  destruct (h !! state) as [o|] eqn:Ho; [|done]. simpl.
  destruct (is_Termination (cls o)) eqn:Hterm.
  { intros [= Hidx]. apply Nat.eqb_eq in Hidx. subst idx.
    exists state. split; [apply rtc_refl|].
    unfold cls_of. rewrite Ho. destruct (cls o); done. }
  assert (Hstep : ∀ i, (i = idx + 1 ∧
             ∃ ch d, s !! idx = Some ch ∧ check_self_ro h d state ch = Ok true)
            ∨ (i = idx ∧ is_Repeat (cls o) = true) →
          for_any_ro (λ nxt, dfs_ro h d s nxt i) (next_states o) = Ok true →
          ∃ t, rtc (move h s) (state, idx) (t, length s) ∧
               cls_of h t = Ok TerminationState).
  { intros i Hi Hany. apply for_any_ro_true in Hany as (nxt & Hin & Hnxt).
    destruct (IH _ _ Hnxt) as (t & Hrtc & Ht). exists t. split; [|done].
    apply rtc_l with (nxt, i); [|done]. exists o. simpl. auto. }
  destruct (s !! idx) as [ch|] eqn:Hch; simpl.
  - destruct (check_self_ro h d state ch) as [[|]|e] eqn:Hok; simpl; try done.
    + destruct (for_any_ro _ (next_states o)) as [[|]|e] eqn:Hhit; simpl;
        try done.
      * intros _. apply (Hstep (idx + 1)); [|done]. left. eauto.
      * destruct (is_Repeat (cls o)) eqn:Hrep; [|done]. simpl.
        apply Hstep. by right.
    + destruct (is_Repeat (cls o)) eqn:Hrep; [|done]. simpl.
      apply Hstep. by right.
  - destruct (is_Repeat (cls o)) eqn:Hrep; [|done]. simpl.
    apply Hstep. by right.
Qed.

Lemma check_string_sound depth self s (h : heap) :
  fst (check_string depth self s h) = Ok true → accepting_run h self s.
Proof.
  rewrite check_string_run. simpl. unfold check_string_ro, next_of.
  destruct (h !! start self) as [o|] eqn:Ho; [|done]. simpl.
  intros Hany. apply for_any_ro_true in Hany as (nxt & Hin & Hnxt).
  apply dfs_ro_sound in Hnxt as (t & Hrtc & Ht).
  exists o, nxt, t. auto.
Qed.

Lemma pattern_a_matches depth s :
  matches (S (S depth)) (py_str "a") s = Ok (bool_decide (s = py_str "a")).
Proof.
  unfold matches.
  replace (compile (py_str "a")) with
    (Ok (mkRegexFSM 0 2 0),
     [mkState StartState [1]; mkState (AsciiState 97%N) [2];
      mkState TerminationState []]) by (vm_compute; reflexivity).
  rewrite check_string_run. unfold check_string_ro, next_of.
  change (py_str "a") with [97%N].
  destruct s as [|c s]; [done|]. simpl.
  destruct (N.eqb_spec c 97) as [->|Hne]; simpl.
  - destruct s; simpl; done.
  - rewrite bool_decide_eq_false_2; [done|]. congruence.
Qed.

(** C2: [check_string] returns [True] only when the moves of the search lead
    from a successor of the start state at index 0 to a termination state
    with the index at the length of the text. The graph of pattern a
    accepts the string a and no other string; it rejects ab and ba. *)
Theorem check_string_full_match :
  (∀ depth self s (h : heap),
     fst (check_string depth self s h) = Ok true → accepting_run h self s) ∧
  (∀ s, returns (py_str "a") s (bool_decide (s = py_str "a"))) ∧
  returns (py_str "a") (py_str "a") true ∧
  returns (py_str "a") (py_str "ab") false ∧
  returns (py_str "a") (py_str "ba") false.
Proof.
  split; [apply check_string_sound|].
  split; [|repeat split; apply (returns_at 2); vm_compute; reflexivity].
  intros s. apply (returns_at 2). apply pattern_a_matches.
Qed.

Lemma check_string_full_match_witness :
  accepting_run
    [mkState StartState [1]; mkState (AsciiState 97%N) [2];
     mkState TerminationState []]
    (mkRegexFSM 0 2 0) (py_str "a").
Proof.
  apply (proj1 check_string_full_match 2). vm_compute. reflexivity.
Defined.

(** ** Running the compiler's steps *)

Lemma set_next_run r l (h : heap) o :
  h !! r = Some o →
  set_next r l h = (Ok tt, <[r := mkState (cls o) l]> h).
Proof. intros Hr. unfold set_next. by rewrite Hr. Qed.

Lemma append_next_run r x (h : heap) o :
  h !! r = Some o →
  append_next r x h
  = (Ok tt, <[r := mkState (cls o) (next_states o ++ [x])]> h).
Proof.
  intros Hr. unfold append_next, bind, get_next, set_next.
  rewrite Hr. simpl. by rewrite Hr.
Qed.

Lemma push_unit_run k parent cs ps (h : heap) op :
  h !! parent = Some op →
  (let* node := alloc k in push_unit node (mkLocals (parent :: cs) ps)) h
  = (Ok (mkLocals (length h :: parent :: cs) (Some parent :: ps)),
     heap_push k parent op h).
Proof.
  intros Hp. unfold bind at 1, alloc, push_unit. simpl. unfold bind.
  rewrite (append_next_run _ _ _ op); [done|].
  by apply lookup_app_l_Some.
Qed.

Lemma new_repeat_run c inner (h : heap) oi :
  h !! inner = Some oi →
  (if N.eqb c sym_star then new_StarState inner else new_PlusState inner) h
  = (Ok (length h),
     <[length h := mkState (repeat_kind c inner) [inner]]>
       (<[inner := mkState (cls oi) (next_states oi ++ [length h])]>
          (h ++ [mkState (repeat_kind c inner) []]))).
Proof.
  intros Hi. pose proof (lookup_lt_Some _ _ _ Hi) as Hlt.
  assert (∀ k,
    (let* self := alloc k in
     let* _ := append_next inner self in
     let* _ := set_next self [inner] in
     ret self) h
    = (Ok (length h),
       <[length h := mkState k [inner]]>
         (<[inner := mkState (cls oi) (next_states oi ++ [length h])]>
            (h ++ [mkState k []])))) as Hgen.
  { intros k. unfold bind at 1, alloc. unfold bind at 1.
    rewrite (append_next_run _ _ _ oi) by (by apply lookup_app_l_Some).
    unfold bind at 1.
    rewrite (set_next_run _ _ _ (mkState k [])); [done|].
    rewrite list_lookup_insert_ne by lia.
    by apply list_lookup_middle. }
  unfold repeat_kind, new_StarState, new_PlusState.
  destruct (N.eqb c sym_star); apply Hgen.
Qed.

Lemma quantifier_branch_run start c i inner c2 cs p ps (h : heap) oi op :
  h !! inner = Some oi → h !! p = Some op → p ≠ inner →
  quantifier_branch start c i
    (mkLocals (inner :: c2 :: cs) (Some p :: ps)) h
  = (Ok (mkLocals (length h :: c2 :: cs) (Some p :: ps)),
     heap_wrap (repeat_kind c inner) inner p oi op h).
Proof.
  intros Hi Hp Hne. unfold quantifier_branch. simpl.
  pose proof (lookup_lt_Some _ _ _ Hp) as Hlt.
  unfold bind at 1. rewrite (new_repeat_run _ _ _ oi Hi).
  unfold bind at 1. unfold bind at 1, get_next.
  rewrite list_lookup_insert_ne by lia.
  rewrite list_lookup_insert_ne by done.
  rewrite (lookup_app_l_Some _ _ _ _ Hp).
  erewrite set_next_run; [done|].
  rewrite list_lookup_insert_ne by lia.
  rewrite list_lookup_insert_ne by done.
  by apply lookup_app_l_Some.
Qed.

(** ** Rewiring a transition list *)

Lemma replace_first_elem inner node l x :
  x ∈ replace_first inner node l → x = node ∨ x ∈ l.
Proof.
  induction l as [|y l IH]; simpl; [auto|].
  destruct (Nat.eqb y inner).
  - rewrite !elem_of_cons. tauto.
  - rewrite !elem_of_cons. intros [->|H]; [auto|]. destruct (IH H); auto.
Qed.

Lemma replace_last_elem inner node l x :
  x ∈ replace_last inner node l → x = node ∨ x ∈ l.
Proof.
  unfold replace_last. intros H.
  apply list_elem_of_In, in_rev, list_elem_of_In in H.
  apply replace_first_elem in H as [->|H]; [auto|right].
  by apply list_elem_of_In, in_rev, list_elem_of_In in H.
Qed.

Lemma replace_last_snoc inner node l :
  replace_last inner node (l ++ [inner]) = l ++ [node].
Proof.
  unfold replace_last. rewrite rev_unit. simpl. rewrite Nat.eqb_refl.
  simpl. by rewrite rev_involutive.
Qed.

(** ** The heap after a step *)

Section HeapPush.
Variables (k : kind) (parent : ref) (op : State) (h : heap).
Hypothesis Hparent : h !! parent = Some op.

Lemma heap_push_length : length (heap_push k parent op h) = S (length h).
Proof using Type.
  clear Hparent. unfold heap_push. rewrite length_insert, length_app. simpl. lia. Qed.

Lemma heap_push_parent :
  heap_push k parent op h !! parent
  = Some (mkState (cls op) (next_states op ++ [length h])).
Proof.
  unfold heap_push. apply list_lookup_insert_eq.
  rewrite length_app. apply lookup_lt_Some in Hparent. lia.
Qed.

Lemma heap_push_new :
  heap_push k parent op h !! length h = Some (mkState k []).
Proof.
  unfold heap_push. apply lookup_lt_Some in Hparent as Hlt.
  rewrite list_lookup_insert_ne by lia. by apply list_lookup_middle.
Qed.

Lemma heap_push_other r :
  r ≠ parent → r < length h → heap_push k parent op h !! r = h !! r.
Proof.
  intros Hne Hlt. unfold heap_push.
  rewrite list_lookup_insert_ne by done. by apply lookup_app_l.
Qed.

Lemma heap_push_lookup r o :
  heap_push k parent op h !! r = Some o →
  (r = parent ∧ o = mkState (cls op) (next_states op ++ [length h]))
  ∨ (r = length h ∧ o = mkState k [])
  ∨ (r ≠ parent ∧ r < length h ∧ h !! r = Some o).
Proof.
  intros Hr. pose proof (lookup_lt_Some _ _ _ Hr) as Hlt.
  rewrite heap_push_length in Hlt.
  destruct (decide (r = parent)) as [->|Hne].
  { left. rewrite heap_push_parent in Hr. by inversion Hr. }
  destruct (decide (r = length h)) as [->|Hne'].
  { right; left. rewrite heap_push_new in Hr. by inversion Hr. }
  right; right. rewrite heap_push_other in Hr by lia.
  repeat split; [done|lia|done].
Qed.

(** Every old object keeps its class. *)
Lemma heap_push_cls r o :
  heap_push k parent op h !! r = Some o → r < length h →
  ∃ o0, h !! r = Some o0 ∧ cls o0 = cls o.
Proof.
  intros Hr Hlt.
  destruct (heap_push_lookup r o Hr) as [[-> ->]|[[-> ->]|(_ & _ & Ho)]].
  - by exists op.
  - lia.
  - by exists o.
Qed.
End HeapPush.

Section HeapWrap.
Variables (k : kind) (inner p : ref) (oi op : State) (h : heap).
Hypothesis Hinner : h !! inner = Some oi.
Hypothesis Hp : h !! p = Some op.
Hypothesis Hne : p ≠ inner.

Lemma heap_wrap_length : length (heap_wrap k inner p oi op h) = S (length h).
Proof using Type.
  clear Hinner Hp Hne.
  unfold heap_wrap. rewrite !length_insert, length_app. simpl. lia.
Qed.

Lemma heap_wrap_parent :
  heap_wrap k inner p oi op h !! p
  = Some (mkState (cls op)
            (replace_last inner (length h) (next_states op))).
Proof.
  unfold heap_wrap. apply list_lookup_insert_eq.
  rewrite !length_insert, length_app. apply lookup_lt_Some in Hp. lia.
Qed.

Lemma heap_wrap_new :
  heap_wrap k inner p oi op h !! length h = Some (mkState k [inner]).
Proof.
  unfold heap_wrap. apply lookup_lt_Some in Hp as Hlt.
  rewrite list_lookup_insert_ne by lia.
  apply list_lookup_insert_eq.
  rewrite !length_insert, length_app. simpl. lia.
Qed.

Lemma heap_wrap_inner :
  heap_wrap k inner p oi op h !! inner
  = Some (mkState (cls oi) (next_states oi ++ [length h])).
Proof.
  unfold heap_wrap. apply lookup_lt_Some in Hinner as Hlt.
  rewrite list_lookup_insert_ne by done.
  rewrite list_lookup_insert_ne by lia.
  apply list_lookup_insert_eq. rewrite length_app. lia.
Qed.

Lemma heap_wrap_other r :
  r ≠ p → r ≠ inner → r < length h →
  heap_wrap k inner p oi op h !! r = h !! r.
Proof.
  intros H1 H2 Hlt. unfold heap_wrap.
  rewrite list_lookup_insert_ne by done.
  rewrite list_lookup_insert_ne by lia.
  rewrite list_lookup_insert_ne by done.
  by apply lookup_app_l.
Qed.

Lemma heap_wrap_lookup r o :
  heap_wrap k inner p oi op h !! r = Some o →
  (r = p ∧
   o = mkState (cls op) (replace_last inner (length h) (next_states op)))
  ∨ (r = length h ∧ o = mkState k [inner])
  ∨ (r = inner ∧ o = mkState (cls oi) (next_states oi ++ [length h]))
  ∨ (r ≠ p ∧ r ≠ inner ∧ r < length h ∧ h !! r = Some o).
Proof.
  intros Hr. pose proof (lookup_lt_Some _ _ _ Hr) as Hlt.
  rewrite heap_wrap_length in Hlt.
  destruct (decide (r = p)) as [->|H1].
  { left. rewrite heap_wrap_parent in Hr. by inversion Hr. }
  destruct (decide (r = length h)) as [->|H2].
  { right; left. rewrite heap_wrap_new in Hr. by inversion Hr. }
  destruct (decide (r = inner)) as [->|H3].
  { right; right; left. rewrite heap_wrap_inner in Hr. by inversion Hr. }
  right; right; right. rewrite heap_wrap_other in Hr by lia.
  repeat split; [done|done|lia|done].
Qed.

Lemma heap_wrap_cls r o :
  heap_wrap k inner p oi op h !! r = Some o → r < length h →
  ∃ o0, h !! r = Some o0 ∧ cls o0 = cls o.
Proof.
  intros Hr Hlt.
  destruct (heap_wrap_lookup r o Hr)
    as [[-> ->]|[[-> ->]|[[-> ->]|(_ & _ & _ & Ho)]]].
  - by exists op.
  - lia.
  - by exists oi.
  - by exists o.
Qed.
End HeapWrap.

(** ** The three kinds of pattern character *)

Lemma char_cases c :
  (is_unit c = true ∧ is_quantifier c = false ∧ isascii c = true)
  ∨ (is_quantifier c = true ∧ is_unit c = false ∧ isascii c = true
     ∧ N.eqb c sym_dot = false)
  ∨ (isascii c = false ∧ is_unit c = false ∧ is_quantifier c = false
     ∧ N.eqb c sym_dot = false).
Proof.
  unfold is_unit, is_quantifier, isascii, sym_dot, sym_star, sym_plus.
  destruct (N.eqb_spec c 46), (N.eqb_spec c 42), (N.eqb_spec c 43),
    (N.ltb_spec c 128); simpl; auto; lia.
Qed.

Lemma unit_kind_plain c : is_Repeat (unit_kind c) = false.
Proof. unfold unit_kind. by destruct (N.eqb c sym_dot). Qed.

Lemma unit_kind_sym c s :
  is_unit c = true → unit_kind c = AsciiState s →
  N.eqb s sym_dot = false ∧ isascii s = true ∧ is_quantifier s = false.
Proof.
  unfold unit_kind, is_unit.
  destruct (N.eqb c sym_dot) eqn:Hdot; [done|]. simpl.
  intros H [= <-]. apply andb_true_iff in H as [H1 H2].
  apply negb_true_iff in H2. auto.
Qed.

Lemma repeat_kind_cases c inner :
  repeat_kind c inner = StarState inner ∨ repeat_kind c inner = PlusState inner.
Proof. unfold repeat_kind. destruct (N.eqb c sym_star); auto. Qed.

(** ** One iteration of the loop *)

Lemma loop_body_unit start ch i v c cs (h : heap) oc :
  is_unit ch = true → states_chain v = c :: cs → h !! c = Some oc →
  loop_body start ch i v h
  = (Ok (mkLocals (length h :: c :: cs) (Some c :: preds v)),
     heap_push (unit_kind ch) c oc h).
Proof.
  intros Hu Hchain Hc. destruct v as [chain ps]. simpl in *. subst chain.
  unfold loop_body, unit_kind. unfold is_unit in Hu.
  destruct (N.eqb ch sym_dot); [by apply push_unit_run|].
  simpl in Hu. rewrite Hu. by apply push_unit_run.
Qed.

Lemma loop_body_quantifier start ch i v inner c2 cs p ps (h : heap) oi op :
  is_quantifier ch = true →
  states_chain v = inner :: c2 :: cs → preds v = Some p :: ps →
  h !! inner = Some oi → h !! p = Some op → p ≠ inner →
  loop_body start ch i v h
  = (Ok (mkLocals (length h :: c2 :: cs) (Some p :: ps)),
     heap_wrap (repeat_kind ch inner) inner p oi op h).
Proof.
  intros Hq Hchain Hpreds Hi Hp Hne. destruct v as [chain ps0].
  simpl in *. subst chain ps0. unfold loop_body.
  destruct (char_cases ch) as [(_ & H & _)|[(_ & _ & _ & Hdot)|(_ & _ & H & _)]];
    try congruence.
  rewrite Hdot, Hq, andb_false_r.
  by apply quantifier_branch_run.
Qed.

Lemma loop_body_dangling start ch i v (h : heap) :
  is_quantifier ch = true → length (states_chain v) < 2 →
  loop_body start ch i v h = (Raise (ValueError ch i), h).
Proof.
  intros Hq Hlen. unfold loop_body.
  destruct (char_cases ch) as [(_ & H & _)|[(_ & _ & _ & Hdot)|(_ & _ & H & _)]];
    try congruence.
  rewrite Hdot, Hq, andb_false_r. unfold quantifier_branch.
  apply Nat.ltb_lt in Hlen. by rewrite Hlen.
Qed.

Lemma loop_body_unsupported start ch i v (h : heap) :
  isascii ch = false →
  loop_body start ch i v h = (Raise (AttributeError ch), h).
Proof.
  intros Ha. unfold loop_body.
  destruct (char_cases ch) as [(_ & _ & H)|[(_ & _ & H & _)|(_ & _ & Hq & Hdot)]];
    try congruence.
  by rewrite Hdot, Hq, Ha.
Qed.

(** ** The steps keep the invariants *)

Lemma heap_wf_push k parent op (h : heap) :
  heap_wf h → h !! parent = Some op → is_Repeat k = false →
  (∀ s, k = AsciiState s →
        N.eqb s sym_dot = false ∧ isascii s = true ∧ is_quantifier s = false) →
  heap_wf (heap_push k parent op h).
Proof.
  intros [Hc Hi Hs] Hp Hk Hsym. constructor.
  - intros r o x Hr Hx. rewrite heap_push_length.
    destruct (heap_push_lookup _ _ _ _ Hp r o Hr)
      as [[-> ->]|[[-> ->]|(_ & _ & Ho)]]; simpl in *.
    + apply elem_of_app in Hx as [Hx|Hx%list_elem_of_singleton]; [|lia].
      specialize (Hc _ _ _ Hp Hx). lia.
    + by apply elem_of_nil in Hx.
    + specialize (Hc _ _ _ Ho Hx). lia.
  - intros r o i Hr Hcls.
    destruct (heap_push_lookup _ _ _ _ Hp r o Hr)
      as [[-> ->]|[[-> ->]|(_ & _ & Ho)]]; simpl in *.
    + by apply (Hi _ op).
    + destruct Hcls as [->| ->]; done.
    + by apply (Hi _ o).
  - intros r o c Hr Hcls.
    destruct (heap_push_lookup _ _ _ _ Hp r o Hr)
      as [[-> ->]|[[-> ->]|(_ & _ & Ho)]]; simpl in *.
    + by eapply (Hs _ op).
    + by apply Hsym.
    + by eapply (Hs _ o).
Qed.

Lemma heap_wf_wrap k inner p oi op (h : heap) :
  heap_wf h → h !! inner = Some oi → h !! p = Some op → p ≠ inner →
  k = StarState inner ∨ k = PlusState inner →
  heap_wf (heap_wrap k inner p oi op h).
Proof.
  intros [Hc Hi Hs] Hinner Hp Hne Hk.
  pose proof (lookup_lt_Some _ _ _ Hinner) as Hlt.
  constructor.
  - intros r o x Hr Hx. rewrite heap_wrap_length.
    destruct (heap_wrap_lookup _ _ _ _ _ _ Hinner Hp Hne r o Hr)
      as [[-> ->]|[[-> ->]|[[-> ->]|(_ & _ & _ & Ho)]]]; simpl in *.
    + apply replace_last_elem in Hx as [->|Hx]; [lia|].
      specialize (Hc _ _ _ Hp Hx). lia.
    + apply list_elem_of_singleton in Hx as ->. lia.
    + apply elem_of_app in Hx as [Hx|Hx%list_elem_of_singleton]; [|lia].
      specialize (Hc _ _ _ Hinner Hx). lia.
    + specialize (Hc _ _ _ Ho Hx). lia.
  - intros r o i Hr Hcls.
    destruct (heap_wrap_lookup _ _ _ _ _ _ Hinner Hp Hne r o Hr)
      as [[-> ->]|[[-> ->]|[[-> ->]|(_ & _ & _ & Ho)]]]; simpl in *.
    + by apply (Hi _ op).
    + destruct Hk as [->| ->], Hcls as [Hcls|Hcls]; inversion Hcls; subst; lia.
    + by apply (Hi _ oi).
    + by apply (Hi _ o).
  - intros r o c Hr Hcls.
    destruct (heap_wrap_lookup _ _ _ _ _ _ Hinner Hp Hne r o Hr)
      as [[-> ->]|[[-> ->]|[[-> ->]|(_ & _ & _ & Ho)]]]; simpl in *.
    + by eapply (Hs _ op).
    + destruct Hk as [->| ->]; done.
    + by eapply (Hs _ oi).
    + by eapply (Hs _ o).
Qed.

Lemma skips_ascend_push k parent op (h : heap) :
  skips_ascend h → h !! parent = Some op → is_Repeat k = false →
  skips_ascend (heap_push k parent op h).
Proof.
  intros Hasc Hp Hk r o x ox Hr Hrep Hx Hox Hrepx.
  pose proof (lookup_lt_Some _ _ _ Hox) as Hxlt.
  rewrite heap_push_length in Hxlt.
  destruct (decide (x = length h)) as [->|Hxn].
  { rewrite heap_push_new in Hox by done. inversion Hox; subst ox.
    simpl in Hrepx. congruence. }
  destruct (heap_push_cls _ _ _ _ Hp x ox Hox) as (ox0 & Hox0 & Hcls);
    [lia|]. rewrite <-Hcls in Hrepx.
  destruct (heap_push_lookup _ _ _ _ Hp r o Hr)
    as [[-> ->]|[[-> ->]|(_ & _ & Ho)]]; simpl in *.
  - apply elem_of_app in Hx as [Hx|Hx%list_elem_of_singleton]; [|done].
    by apply (Hasc _ op _ ox0).
  - congruence.
  - by apply (Hasc _ o _ ox0).
Qed.

Lemma skips_ascend_wrap k inner p oi op (h : heap) :
  skips_ascend h → h !! inner = Some oi → h !! p = Some op → p ≠ inner →
  is_Repeat (cls oi) = false →
  skips_ascend (heap_wrap k inner p oi op h).
Proof.
  intros Hasc Hinner Hp Hne Hplain r o x ox Hr Hrep Hx Hox Hrepx.
  pose proof (lookup_lt_Some _ _ _ Hinner) as Hilt.
  pose proof (lookup_lt_Some _ _ _ Hp) as Hplt.
  pose proof (lookup_lt_Some _ _ _ Hox) as Hxlt.
  pose proof (lookup_lt_Some _ _ _ Hr) as Hrlt.
  rewrite heap_wrap_length in Hxlt, Hrlt.
  destruct (heap_wrap_lookup _ _ _ _ _ _ Hinner Hp Hne r o Hr)
    as [[-> ->]|[[-> ->]|[[-> ->]|(_ & _ & Hrn & Ho)]]]; simpl in *.
  - apply replace_last_elem in Hx as [->|Hx]; [done|].
    destruct (decide (x = length h)) as [->|Hxn]; [done|].
    destruct (heap_wrap_cls _ _ _ _ _ _ Hinner Hp Hne x ox Hox)
      as (ox0 & Hox0 & Hcls); [lia|]. rewrite <-Hcls in Hrepx.
    by apply (Hasc _ op _ ox0).
  - apply list_elem_of_singleton in Hx as ->.
    rewrite heap_wrap_inner in Hox by done. inversion Hox; subst ox.
    simpl in Hrepx. congruence.
  - congruence.
  - destruct (decide (x = length h)) as [->|Hxn]; [done|].
    destruct (heap_wrap_cls _ _ _ _ _ _ Hinner Hp Hne x ox Hox)
      as (ox0 & Hox0 & Hcls); [lia|]. rewrite <-Hcls in Hrepx.
    by apply (Hasc _ o _ ox0).
Qed.

Lemma top_ok_push k v c cs (h : heap) oc :
  top_ok h v → states_chain v = c :: cs → h !! c = Some oc →
  top_ok (heap_push k c oc h)
    (mkLocals (length h :: c :: cs) (Some c :: preds v)).
Proof.
  intros (c0 & cs0 & q & ps & Hchain & Hpreds & Hlen & Hlt & _) Hv Hc.
  rewrite Hv in Hchain. inversion Hchain; subst c0 cs0.
  exists (length h), (c :: cs), (Some c), (preds v). simpl.
  rewrite heap_push_length, Hpreds. simpl.
  repeat split; [lia|lia|]. intros _.
  exists c, (mkState (cls oc) (next_states oc ++ [length h])), (next_states oc).
  repeat split; [done|]. by apply heap_push_parent.
Qed.

(** What [top_ok] says when the chain has an entry above the start state. *)
Lemma top_ok_unit (h : heap) v inner c2 cs :
  top_ok h v → states_chain v = inner :: c2 :: cs →
  ∃ p ps oi op l,
    preds v = Some p :: ps ∧ length (c2 :: cs) = length ps ∧ p < inner ∧
    h !! inner = Some oi ∧ h !! p = Some op ∧ next_states op = l ++ [inner].
Proof.
  intros (c0 & cs0 & q & ps & Hchain & Hpreds & Hlen & Hlt & Htop) Hv.
  rewrite Hv in Hchain. inversion Hchain; subst c0 cs0.
  destruct Htop as (p & op & l & -> & Hpc & Hp & Hnext); [done|].
  destruct (lookup_lt_is_Some_2 h inner Hlt) as [oi Hi].
  exists p, ps, oi, op, l. repeat split; done.
Qed.

Lemma top_ok_wrap k inner c2 cs p ps oi op l (h : heap) :
  length (c2 :: cs) = length ps → p < inner →
  h !! inner = Some oi → h !! p = Some op →
  next_states op = l ++ [inner] →
  top_ok (heap_wrap k inner p oi op h)
    (mkLocals (length h :: c2 :: cs) (Some p :: ps)).
Proof.
  intros Hlen Hpc Hi Hp Hnext.
  pose proof (lookup_lt_Some _ _ _ Hi) as Hilt.
  exists (length h), (c2 :: cs), (Some p), ps. simpl.
  rewrite heap_wrap_length. repeat split; [done|lia|]. intros _.
  exists p, (mkState (cls op) (l ++ [length h])), l.
  repeat split; [lia|].
  rewrite heap_wrap_parent by (done || lia).
  by rewrite Hnext, replace_last_snoc.
Qed.

Lemma loop_body_preserves start ch i v (h : heap) v' h' :
  heap_wf h → top_ok h v →
  loop_body start ch i v h = (Ok v', h') →
  heap_wf h' ∧ top_ok h' v' ∧ 2 ≤ length (states_chain v') ∧
  (skips_ascend h → (is_quantifier ch = true → plain_top h v) →
   skips_ascend h' ∧ (is_quantifier ch = false → plain_top h' v')).
Proof.
  intros Hwf Htop Hrun.
  pose proof Htop as (c & cs & q & ps & Hchain & Hpreds & Hlen & Hlt & _).
  destruct (char_cases ch) as [(Hu & Hnq & _)|[(Hq & _ & _ & _)|(Ha & _)]].
  - destruct (lookup_lt_is_Some_2 h c Hlt) as [oc Hc].
    rewrite (loop_body_unit _ _ _ _ _ _ _ _ Hu Hchain Hc) in Hrun.
    inversion Hrun; subst v' h'.
    split; [apply heap_wf_push; eauto using unit_kind_plain, unit_kind_sym|].
    split; [by apply top_ok_push|]. split; [simpl; lia|].
    intros Hasc _.
    split; [apply skips_ascend_push; auto using unit_kind_plain|].
    intros _. exists (length h), (c :: cs), (mkState (unit_kind ch) []).
    simpl. split; [done|].
    split; [by apply heap_push_new|apply unit_kind_plain].
  - destruct cs as [|c2 cs].
    { rewrite loop_body_dangling in Hrun; [done|done|].
      rewrite Hchain. simpl. lia. }
    destruct (top_ok_unit h v c c2 cs Htop Hchain)
      as (p & ps' & oi & op & l & Hpreds' & Hlen' & Hpc & Hi & Hp & Hnext).
    rewrite (loop_body_quantifier _ _ _ _ _ _ _ _ _ _ _ _
               Hq Hchain Hpreds' Hi Hp) in Hrun by lia.
    inversion Hrun; subst v' h'.
    split; [apply heap_wf_wrap; auto using repeat_kind_cases; lia|].
    split; [by apply (top_ok_wrap _ _ _ _ _ _ _ _ l)|].
    split; [simpl; lia|].
    intros Hasc Hplain. split; [|congruence].
    apply skips_ascend_wrap; auto; [lia|].
    destruct (Hplain Hq) as (c0 & cs0 & o0 & Hch0 & Ho0 & Hrep0).
    rewrite Hchain in Hch0. inversion Hch0; subst c0 cs0.
    rewrite Hi in Ho0. by inversion Ho0; subst o0.
  - by rewrite loop_body_unsupported in Hrun.
Qed.

Lemma loop_body_ok start ch i v (h : heap) :
  top_ok h v → isascii ch = true →
  (is_quantifier ch = true → 2 ≤ length (states_chain v)) →
  ∃ v' h', loop_body start ch i v h = (Ok v', h').
Proof.
  intros Htop Ha Hlen2.
  pose proof Htop as (c & cs & q & ps & Hchain & Hpreds & Hlen & Hlt & _).
  destruct (char_cases ch) as [(Hu & Hnq & _)|[(Hq & _ & _ & _)|(Hna & _)]].
  - destruct (lookup_lt_is_Some_2 h c Hlt) as [oc Hc].
    rewrite (loop_body_unit _ _ _ _ _ _ _ _ Hu Hchain Hc). eauto.
  - specialize (Hlen2 Hq). rewrite Hchain in Hlen2.
    destruct cs as [|c2 cs]; [simpl in Hlen2; lia|].
    destruct (top_ok_unit h v c c2 cs Htop Hchain)
      as (p & ps' & oi & op & l & Hpreds' & Hlen' & Hpc & Hi & Hp & Hnext).
    rewrite (loop_body_quantifier _ _ _ _ _ _ _ _ _ _ _ _
               Hq Hchain Hpreds' Hi Hp) by lia.
    eauto.
  - congruence.
Qed.

(** ** The whole loop *)

Lemma loop_cons start c rest i v (h : heap) :
  loop start (c :: rest) i v h
  = match loop_body start c i v h with
    | (Ok v', h') => loop start rest (S i) v' h'
    | (Raise e, h') => (Raise e, h')
    end.
Proof. reflexivity. Qed.

Lemma loop_preserves start rest : ∀ i v (h : heap) v' h',
  heap_wf h → top_ok h v →
  loop start rest i v h = (Ok v', h') →
  heap_wf h' ∧ top_ok h' v' ∧
  (skips_ascend h → no_consecutive_quantifiers rest = true →
   (from_option is_quantifier false (head rest) = true → plain_top h v) →
   skips_ascend h').
Proof.
  induction rest as [|c rest IH]; intros i v h v' h' Hwf Htop Hrun.
  { inversion Hrun; subst v' h'. auto. }
  rewrite loop_cons in Hrun.
  destruct (loop_body start c i v h) as [[v1|e] h1] eqn:Hbody; [|done].
  destruct (loop_body_preserves _ _ _ _ _ _ _ Hwf Htop Hbody)
    as (Hwf1 & Htop1 & _ & Hasc1).
  destruct (IH _ _ _ _ _ Hwf1 Htop1 Hrun) as (Hwf' & Htop' & Hasc').
  split; [done|]. split; [done|].
  intros Hasc Hnc Hplain. simpl in Hnc, Hplain.
  apply andb_true_iff in Hnc as [Hnc1 Hnc2]. apply negb_true_iff in Hnc1.
  destruct (Hasc1 Hasc Hplain) as [Hasc2 Hplain2].
  apply Hasc'; [done|done|].
  intros Hq. apply Hplain2. rewrite Hq, andb_true_r in Hnc1. done.
Qed.

(** Above the first unit the loop can only fail on a character that is not
    ASCII. *)
Lemma loop_result start rest : ∀ i v (h : heap),
  heap_wf h → top_ok h v → 2 ≤ length (states_chain v) →
  (Forall (λ c, isascii c = true) rest ∧
   ∃ v' h', loop start rest i v h = (Ok v', h'))
  ∨ (∃ pre c post h',
       rest = pre ++ c :: post ∧ Forall (λ c, isascii c = true) pre ∧
       isascii c = false ∧
       loop start rest i v h = (Raise (AttributeError c), h')).
Proof.
  induction rest as [|c rest IH]; intros i v h Hwf Htop Hlen.
  { left. split; [constructor|]. by exists v, h. }
  rewrite loop_cons.
  destruct (isascii c) eqn:Ha.
  - destruct (loop_body_ok start c i v h Htop Ha) as (v1 & h1 & Hbody); [done|].
    rewrite Hbody.
    destruct (loop_body_preserves _ _ _ _ _ _ _ Hwf Htop Hbody)
      as (Hwf1 & Htop1 & Hlen1 & _).
    destruct (IH (S i) v1 h1 Hwf1 Htop1 Hlen1)
      as [[Hall Hok]|(pre & x & post & h' & -> & Hpre & Hx & Hrun)].
    + left. split; [by constructor|done].
    + right. exists (c :: pre), x, post, h'.
      split; [done|]. split; [by constructor|]. done.
  - right. exists [], c, rest, h. rewrite loop_body_unsupported by done.
    split; [done|]. split; [constructor|]. done.
Qed.

(** ** The compiler from the empty heap *)

Lemma heap_wf_init : heap_wf [mkState StartState []].
Proof.
  constructor.
  - intros [|r] o x Hr Hx; [|done]. inversion Hr; subst o.
    by apply elem_of_nil in Hx.
  - intros [|r] o i Hr [Hcls|Hcls]; try done; inversion Hr; by subst o.
  - intros [|r] o c Hr Hcls; [|done]. inversion Hr; by subst o.
Qed.

Lemma top_ok_init : top_ok [mkState StartState []] (mkLocals [0] [None]).
Proof. exists 0, [], None, []. simpl. repeat split; auto. done. Qed.

Lemma compile_prefix_unfold pre :
  compile_prefix pre = loop 0 pre 0 (mkLocals [0] [None]) [mkState StartState []].
Proof. reflexivity. Qed.

Lemma compile_prefix_inv pre v (h : heap) :
  compile_prefix pre = (Ok v, h) →
  heap_wf h ∧ top_ok h v ∧
  (no_consecutive_quantifiers pre = true → skips_ascend h).
Proof.
  rewrite compile_prefix_unfold. intros Hrun.
  destruct (loop_preserves _ _ _ _ _ _ _ heap_wf_init top_ok_init Hrun)
    as (Hwf & Htop & Hasc).
  split; [done|]. split; [done|]. intros Hnc. apply Hasc; [|done|].
  - intros [|r] o x ox Hr Hrep; [|done]. by inversion Hr; subst o.
  - intros _. by exists 0, [], (mkState StartState []).
Qed.

Lemma compile_finish p v (h : heap) c cs oc :
  compile_prefix p = (Ok v, h) → states_chain v = c :: cs →
  h !! c = Some oc →
  compile p
  = (Ok (mkRegexFSM 0 (length h) 0), heap_push TerminationState c oc h).
Proof.
  rewrite compile_prefix_unfold. intros Hrun Hchain Hc.
  unfold compile, RegexFSM_init. unfold bind at 1, alloc at 1. simpl.
  unfold bind at 1. rewrite Hrun.
  unfold bind at 1, alloc at 1. rewrite Hchain.
  unfold bind at 1.
  rewrite (append_next_run _ _ _ oc); [done|].
  by apply lookup_app_l_Some.
Qed.

Lemma compile_raise p e (h : heap) :
  compile_prefix p = (Raise e, h) → compile p = (Raise e, h).
Proof.
  rewrite compile_prefix_unfold. intros Hrun.
  unfold compile, RegexFSM_init. unfold bind at 1, alloc at 1. simpl.
  unfold bind at 1. by rewrite Hrun.
Qed.

(** A successful compilation is a successful loop followed by the creation
    of the termination state. *)
Lemma compile_ok_inv p fsm (h' : heap) :
  compile p = (Ok fsm, h') →
  ∃ v h c cs oc,
    compile_prefix p = (Ok v, h) ∧ states_chain v = c :: cs ∧
    h !! c = Some oc ∧
    fsm = mkRegexFSM 0 (length h) 0 ∧
    h' = heap_push TerminationState c oc h.
Proof.
  intros Hc. destruct (compile_prefix p) as [[v|e] h] eqn:Hpre.
  - destruct (compile_prefix_inv _ _ _ Hpre) as (_ & Htop & _).
    destruct Htop as (c & cs & q & ps & Hchain & _ & _ & Hlt & _).
    destruct (lookup_lt_is_Some_2 h c Hlt) as [oc Hoc].
    rewrite (compile_finish _ _ _ _ _ _ Hpre Hchain Hoc) in Hc.
    inversion Hc; subst fsm h'.
    by exists v, h, c, cs, oc.
  - rewrite (compile_raise _ _ _ Hpre) in Hc. done.
Qed.

Lemma loop_two start rest : ∀ i v (h : heap) v' h',
  heap_wf h → top_ok h v →
  loop start rest i v h = (Ok v', h') →
  2 ≤ length (states_chain v) ∨ rest ≠ [] →
  2 ≤ length (states_chain v').
Proof.
  induction rest as [|c rest IH]; intros i v h v' h' Hwf Htop Hrun Hlen.
  { inversion Hrun; subst v' h'. by destruct Hlen. }
  rewrite loop_cons in Hrun.
  destruct (loop_body start c i v h) as [[v1|e] h1] eqn:Hbody; [|done].
  destruct (loop_body_preserves _ _ _ _ _ _ _ Hwf Htop Hbody)
    as (Hwf1 & Htop1 & Hlen1 & _).
  apply (IH _ _ _ _ _ Hwf1 Htop1 Hrun). by left.
Qed.

Lemma compile_prefix_length pre v (h : heap) :
  compile_prefix pre = (Ok v, h) →
  (length (states_chain v) < 2 ↔ pre = []).
Proof.
  intros Hrun. split.
  - intros Hlen. destruct pre as [|c pre]; [done|].
    rewrite compile_prefix_unfold in Hrun.
    pose proof (loop_two _ _ _ _ _ _ _ heap_wf_init top_ok_init Hrun) as H.
    assert (2 ≤ length (states_chain v)) by (apply H; by right). lia.
  - intros ->. inversion Hrun; subst v h. simpl. lia.
Qed.

(** What [compile] returns, by the shape of the pattern. *)
Lemma compile_classify p :
  (starts_with_quantifier p = true ∧
   ∃ c rest h, p = c :: rest ∧ compile p = (Raise (ValueError c 0), h))
  ∨ (starts_with_quantifier p = false ∧
     Forall (λ c, isascii c = true) p ∧
     ∃ fsm h, compile p = (Ok fsm, h))
  ∨ (starts_with_quantifier p = false ∧
     ∃ pre x post h,
       p = pre ++ x :: post ∧ Forall (λ c, isascii c = true) pre ∧
       isascii x = false ∧ compile p = (Raise (AttributeError x), h)).
Proof.
  destruct p as [|c rest].
  { right; left. split; [done|]. split; [constructor|].
    eexists _, _. vm_compute. reflexivity. }
  unfold starts_with_quantifier. simpl.
  pose proof (compile_prefix_unfold (c :: rest)) as Hpre.
  rewrite loop_cons in Hpre.
  destruct (char_cases c) as [(Hu & Hnq & Ha)|[(Hq & _ & _ & _)|(Ha & _ & Hnq & _)]].
  - right. rewrite Hnq.
    rewrite (loop_body_unit _ _ _ _ 0 [] _ (mkState StartState []) Hu)
      in Hpre by done.
    assert (loop_body 0 c 0 (mkLocals [0] [None]) [mkState StartState []]
            = (Ok (mkLocals [1; 0] [Some 0; None]),
               heap_push (unit_kind c) 0 (mkState StartState [])
                 [mkState StartState []])) as Hbody.
    { by apply loop_body_unit. }
    destruct (loop_body_preserves _ _ _ _ _ _ _ heap_wf_init top_ok_init Hbody)
      as (Hwf1 & Htop1 & Hlen1 & _).
    simpl in Hpre.
    destruct (loop_result 0 rest 1 _ _ Hwf1 Htop1 Hlen1)
      as [[Hall (v' & h' & Hrun)]|(pre & x & post & h' & -> & Hall & Hx & Hrun)].
    + left. split; [done|]. split; [by constructor|].
      rewrite Hrun in Hpre.
      destruct (compile_prefix_inv _ _ _ Hpre) as (_ & Htop & _).
      destruct Htop as (c0 & cs & q & ps & Hchain & _ & _ & Hlt & _).
      destruct (lookup_lt_is_Some_2 h' c0 Hlt) as [oc Hoc].
      rewrite (compile_finish _ _ _ _ _ _ Hpre Hchain Hoc). eauto.
    + right. split; [done|]. exists (c :: pre), x, post, h'.
      split; [done|]. split; [by constructor|]. split; [done|].
      rewrite Hrun in Hpre. by apply compile_raise.
  - left. rewrite Hq. split; [done|].
    rewrite loop_body_dangling in Hpre by (simpl; auto).
    eexists c, rest, _. split; [done|]. by apply compile_raise.
  - right; right. rewrite Hnq. split; [done|].
    rewrite loop_body_unsupported in Hpre by done.
    eexists [], c, rest, _. split; [done|]. split; [constructor|].
    split; [done|]. by apply compile_raise.
Qed.

(** ** Compile-time errors *)

(** C5: [compile] raises the "Nothing to repeat" [ValueError] exactly when
    the pattern begins with a quantifier character, and the error carries
    that character and position 0. In the loop, a quantifier character
    raises it exactly when [states_chain] has fewer than two entries, which
    is the case at position 0 only. The patterns *a and * fail with it. *)
Theorem dangling_quantifier :
  (∀ p c i,
     fst (compile p) = Raise (ValueError c i)
     ↔ i = 0 ∧ is_quantifier c = true ∧ ∃ rest, p = c :: rest) ∧
  (∀ pre v (h : heap) c,
     compile_prefix pre = (Ok v, h) → is_quantifier c = true →
     (fst (loop_body 0 c (length pre) v h) = Raise (ValueError c (length pre))
      ↔ length (states_chain v) < 2) ∧
     (length (states_chain v) < 2 ↔ pre = [])) ∧
  fst (compile (py_str "*a")) = Raise (ValueError sym_star 0) ∧
  fst (compile (py_str "*")) = Raise (ValueError sym_star 0).
Proof.
  split; [|split; [|split; vm_compute; reflexivity]].
  - intros p c i. split.
    + intros Hc.
      destruct (compile_classify p)
        as [(Hq & c0 & rest & h & -> & Hrun)
           |[(_ & _ & fsm & h & Hrun)
            |(_ & pre & x & post & h & _ & _ & _ & Hrun)]];
        rewrite Hrun in Hc; simpl in Hc; inversion Hc; subst.
      unfold starts_with_quantifier in Hq. simpl in Hq. eauto.
    + intros (-> & Hq & rest & ->).
      destruct (compile_classify (c :: rest))
        as [(_ & c0 & rest0 & h & Heq & Hrun)
           |[(Hnq & _)|(Hnq & _)]];
        try (unfold starts_with_quantifier in Hnq; simpl in Hnq; congruence).
      inversion Heq; subst c0 rest0. by rewrite Hrun.
  - intros pre v h c Hpre Hq.
    split; [|by apply (compile_prefix_length _ _ h)].
    split.
    + intros Hrun.
      destruct (decide (length (states_chain v) < 2)) as [|Hge]; [done|].
      destruct (compile_prefix_inv _ _ _ Hpre) as (_ & Htop & _).
      destruct (loop_body_ok 0 c (length pre) v h Htop) as (v' & h' & Hok).
      * by destruct (char_cases c) as [(_ & ? & _)|[(_ & _ & ? & _)|(_ & _ & ? & _)]];
          try congruence.
      * intros _. lia.
      * rewrite Hok in Hrun. done.
    + intros Hlen. by rewrite loop_body_dangling.
Qed.

Lemma dangling_quantifier_witness :
  (fst (loop_body 0 sym_star 0 (mkLocals [0] [None]) [mkState StartState []])
   = Raise (ValueError sym_star 0)
   ↔ length [0] < 2)
  ∧ (length [0] < 2 ↔ @nil char = []).
Proof.
  apply (proj1 (proj2 dangling_quantifier) [] (mkLocals [0] [None])
           [mkState StartState []] sym_star); reflexivity.
Defined.

Lemma first_split_unique (P : char → Prop) pre : ∀ c post pre' x post',
  pre ++ c :: post = pre' ++ x :: post' →
  Forall P pre → ¬ P c → Forall P pre' → ¬ P x →
  pre = pre' ∧ c = x.
Proof.
  induction pre as [|a pre IH]; intros c post pre' x post' Heq Hpre Hc Hpre' Hx.
  - destruct pre' as [|b pre']; simpl in Heq; inversion Heq; subst; [done|].
    inversion Hpre'; subst. done.
  - destruct pre' as [|b pre']; simpl in Heq; inversion Heq; subst.
    + inversion Hpre; subst. done.
    + inversion Hpre; inversion Hpre'; subst.
      destruct (IH _ _ _ _ _ H1 H3 Hc H7 Hx) as [-> ->]. done.
Qed.

(** The claim C6 as it is worded fails: a pattern can hold a character
    outside the alphabet and still not fail with the "Unsupported
    character" error, because the quantifier at position 0 is reported
    first. *)
Lemma unsupported_symbol_preempted :
  (∃ c, c ∈ [sym_star; 233%N] ∧ isascii c = false) ∧
  fst (compile [sym_star; 233%N]) = Raise (ValueError sym_star 0) ∧
  ¬ ∃ c, fst (compile [sym_star; 233%N]) = Raise (AttributeError c).
Proof.
  split; [|split].
  - exists 233%N. split; [|done]. right. left.
  - vm_compute. reflexivity.
  - intros [c Hc]. vm_compute in Hc. discriminate.
Qed.

(** C6, amended: [compile] raises the "Unsupported character"
    [AttributeError] carrying [c] exactly when the pattern does not begin
    with a quantifier character and [c] is its first character that is not
    ASCII. It succeeds exactly when the pattern does not begin with a
    quantifier character and all its characters are ASCII. The accepted
    characters are the code points below 128, among them the wildcard and
    the two quantifier characters. *)
Theorem unsupported_symbol :
  (∀ p c,
     fst (compile p) = Raise (AttributeError c)
     ↔ starts_with_quantifier p = false ∧
       ∃ pre post, p = pre ++ c :: post ∧
                   Forall (λ x, isascii x = true) pre ∧ isascii c = false) ∧
  (∀ p,
     (∃ fsm, fst (compile p) = Ok fsm)
     ↔ starts_with_quantifier p = false ∧ Forall (λ x, isascii x = true) p) ∧
  (∀ c, isascii c = true ↔ (c < 128)%N) ∧
  isascii sym_dot = true ∧ isascii sym_star = true ∧ isascii sym_plus = true.
Proof.
  split; [|split; [|split; [|by vm_compute]]].
  - intros p c. split.
    + intros Hc.
      destruct (compile_classify p)
        as [(_ & c0 & rest & h & _ & Hrun)
           |[(_ & _ & fsm & h & Hrun)
            |(Hnq & pre & x & post & h & Hp & Hpre & Hx & Hrun)]];
        rewrite Hrun in Hc; simpl in Hc; inversion Hc; subst.
      split; [done|]. by exists pre, post.
    + intros (Hnq & pre & post & -> & Hpre & Hc).
      destruct (compile_classify (pre ++ c :: post))
        as [(Hq & _)
           |[(_ & Hall & _)
            |(_ & pre' & x & post' & h & Heq & Hpre' & Hx & Hrun)]].
      * congruence.
      * apply Forall_app in Hall as [_ Hall]. inversion Hall; subst.
        congruence.
      * destruct (first_split_unique (λ x, isascii x = true)
                    _ _ _ _ _ _ Heq Hpre) as [_ ->]; try done; try congruence.
        by rewrite Hrun.
  - intros p. split.
    + intros [fsm Hc].
      destruct (compile_classify p)
        as [(_ & c0 & rest & h & _ & Hrun)
           |[(Hnq & Hall & _)
            |(_ & pre & x & post & h & _ & _ & _ & Hrun)]];
        try (rewrite Hrun in Hc; simpl in Hc; discriminate).
      done.
    + intros [Hnq Hall].
      destruct (compile_classify p)
        as [(Hq & _)
           |[(_ & _ & fsm & h & Hrun)
            |(_ & pre & x & post & h & -> & _ & Hx & _)]].
      * congruence.
      * exists fsm. by rewrite Hrun.
      * apply Forall_app in Hall as [_ Hall]. inversion Hall; subst.
        congruence.
  - intros c. unfold isascii. apply N.ltb_lt.
Qed.

(** ** Quantifier rewiring *)

(** C3: let the loop have read [pre] and let the next character [q] be a
    quantifier that the loop processes. Then the tail [inner] of the chain
    and its recorded parent exist, the parent's last successor is [inner],
    and after the step, with [node] the new repeat state: (c) the successors
    of [node] are exactly [[inner]] and [node] wraps [inner]; (a) [inner]
    has gained [node] as its last successor; (b) in the parent's list the
    entry [inner] has been replaced by [node]; every other state is as it
    was, and [node] has taken the place of [inner] on the chain. *)
Theorem quantifier_rewiring pre q v (h : heap) v' (h' : heap) :
  compile_prefix pre = (Ok v, h) → is_quantifier q = true →
  loop_body 0 q (length pre) v h = (Ok v', h') →
  ∃ inner parent chain' preds' oi op l,
    states_chain v = inner :: chain' ∧ preds v = Some parent :: preds' ∧
    h !! inner = Some oi ∧ h !! parent = Some op ∧
    next_states op = l ++ [inner] ∧
    h' !! length h = Some (mkState (repeat_kind q inner) [inner]) ∧
    h' !! inner = Some (mkState (cls oi) (next_states oi ++ [length h])) ∧
    h' !! parent = Some (mkState (cls op) (l ++ [length h])) ∧
    (∀ r, r ≠ inner → r ≠ parent → r < length h → h' !! r = h !! r) ∧
    length h' = S (length h) ∧
    v' = mkLocals (length h :: chain') (Some parent :: preds').
Proof.
  intros Hpre Hq Hrun.
  destruct (compile_prefix_inv _ _ _ Hpre) as (Hwf & Htop & _).
  pose proof Htop as (c & cs & q0 & ps & Hchain & Hpreds & Hlen & Hlt & _).
  destruct cs as [|c2 cs].
  { rewrite loop_body_dangling in Hrun; [done|done|].
    rewrite Hchain. simpl. lia. }
  destruct (top_ok_unit h v c c2 cs Htop Hchain)
    as (p & ps' & oi & op & l & Hpreds' & Hlen' & Hpc & Hi & Hp & Hnext).
  assert (p ≠ c) as Hne by lia.
  rewrite (loop_body_quantifier _ _ _ _ _ _ _ _ _ _ _ _
             Hq Hchain Hpreds' Hi Hp Hne) in Hrun.
  inversion Hrun; subst v' h'.
  exists c, p, (c2 :: cs), ps', oi, op, l.
  split; [done|]. split; [done|]. split; [done|]. split; [done|].
  split; [done|].
  split; [by apply heap_wrap_new|].
  split; [by apply heap_wrap_inner|].
  split; [rewrite heap_wrap_parent by done;
          by rewrite Hnext, replace_last_snoc|].
  split; [intros r H1 H2 H3; by apply heap_wrap_other|].
  split; [apply heap_wrap_length|done].
Qed.

Lemma quantifier_rewiring_witness :
  ∃ inner parent chain' preds' oi op l,
    states_chain (mkLocals [1; 0] [Some 0; None]) = inner :: chain' ∧
    preds (mkLocals [1; 0] [Some 0; None]) = Some parent :: preds' ∧
    [mkState StartState [1]; mkState (AsciiState 97%N) []] !! inner = Some oi ∧
    [mkState StartState [1]; mkState (AsciiState 97%N) []] !! parent = Some op ∧
    next_states op = l ++ [inner] ∧
    [mkState StartState [2]; mkState (AsciiState 97%N) [2];
     mkState (StarState 1) [1]] !! 2
    = Some (mkState (repeat_kind sym_star inner) [inner]) ∧
    [mkState StartState [2]; mkState (AsciiState 97%N) [2];
     mkState (StarState 1) [1]] !! inner
    = Some (mkState (cls oi) (next_states oi ++ [2])) ∧
    [mkState StartState [2]; mkState (AsciiState 97%N) [2];
     mkState (StarState 1) [1]] !! parent
    = Some (mkState (cls op) (l ++ [2])) ∧
    (∀ r, r ≠ inner → r ≠ parent → r < 2 →
          [mkState StartState [2]; mkState (AsciiState 97%N) [2];
           mkState (StarState 1) [1]] !! r
          = [mkState StartState [1]; mkState (AsciiState 97%N) []] !! r) ∧
    length [mkState StartState [2]; mkState (AsciiState 97%N) [2];
            mkState (StarState 1) [1]] = 3 ∧
    mkLocals [2; 0] [Some 0; None] = mkLocals (2 :: chain') (Some parent :: preds').
Proof.
  apply (quantifier_rewiring (py_str "a") sym_star
           (mkLocals [1; 0] [Some 0; None])
           [mkState StartState [1]; mkState (AsciiState 97%N) []]);
    vm_compute; reflexivity.
Defined.

(** ** Literals never store a reserved character *)

Lemma check_self_reserved (h : heap) c :
  (∀ r o s, h !! r = Some o → cls o = AsciiState s → s ≠ c) →
  ∀ depth state,
    check_self_ro h depth state c = Ok true → wraps_dot h state.
Proof.
  intros Hsym. induction depth as [|d IH]; intros state; [done|].
  simpl. unfold cls_of.
  destruct (h !! state) as [o|] eqn:Ho; [|done]. simpl.
  destruct (cls o) as [| | |s|i|i] eqn:Hcls; try done.
  - intros _. by apply (wraps_dot_here h state o).
  - intros [= Heq]. apply N.eqb_eq in Heq. subst s.
    by destruct (Hsym _ _ _ Ho Hcls).
  - intros H. apply (wraps_dot_inner h state o i); auto.
  - intros H. apply (wraps_dot_inner h state o i); auto.
Qed.

Lemma compile_heap_wf p fsm (h : heap) :
  compile p = (Ok fsm, h) → heap_wf h.
Proof.
  intros Hc.
  destruct (compile_ok_inv _ _ _ Hc)
    as (v & h0 & c & cs & oc & Hpre & Hchain & Hoc & -> & ->).
  destruct (compile_prefix_inv _ _ _ Hpre) as (Hwf & _ & _).
  by apply heap_wf_push.
Qed.

(** C10: in the graph of every pattern that [compile] accepts, no
    [AsciiState] stores the wildcard character or a quantifier character;
    so a state that accepts one of these three characters of the text is a
    [DotState], or a repeat state around one, never a literal. *)
Theorem literal_never_reserved p fsm (h : heap) :
  compile p = (Ok fsm, h) →
  (∀ r o c,
     h !! r = Some o → cls o = AsciiState c →
     c ≠ sym_dot ∧ c ≠ sym_star ∧ c ≠ sym_plus) ∧
  (∀ depth state c,
     c ∈ [sym_dot; sym_star; sym_plus] →
     fst (check_self depth state c h) = Ok true →
     wraps_dot h state ∧
     ∀ o, h !! state = Some o → ∀ s, cls o ≠ AsciiState s).
Proof.
  intros Hc. pose proof (compile_heap_wf _ _ _ Hc) as [_ _ Hsym].
  assert (∀ r o c, h !! r = Some o → cls o = AsciiState c →
                   c ≠ sym_dot ∧ c ≠ sym_star ∧ c ≠ sym_plus) as Hres.
  { intros r o c Hr Hcls. destruct (Hsym _ _ _ Hr Hcls) as (Hd & _ & Hq).
    unfold is_quantifier in Hq. apply orb_false_iff in Hq as [Hs Hp].
    apply N.eqb_neq in Hd, Hs, Hp. done. }
  split; [done|].
  intros depth state c Hin Hacc. rewrite check_self_run in Hacc.
  simpl in Hacc.
  assert (∀ r o s, h !! r = Some o → cls o = AsciiState s → s ≠ c) as Hne.
  { intros r o s Hr Hcls -> .
    destruct (Hres _ _ _ Hr Hcls) as (H1 & H2 & H3).
    rewrite !elem_of_cons in Hin. rewrite elem_of_nil in Hin.
    destruct Hin as [->|[->|[->|[]]]]; done. }
  split; [by apply (check_self_reserved h c Hne depth)|].
  intros o Ho s Hcls. destruct depth as [|d]; [done|].
  simpl in Hacc. unfold cls_of in Hacc. rewrite Ho in Hacc. simpl in Hacc.
  rewrite Hcls in Hacc. inversion Hacc as [Heq].
  apply N.eqb_eq in Heq. subst s. by apply (Hne _ _ _ Ho Hcls).
Qed.

Lemma literal_never_reserved_witness :
  (∀ r o c,
     [mkState StartState [1]; mkState (AsciiState 97%N) [2];
      mkState DotState [3]; mkState TerminationState []] !! r = Some o →
     cls o = AsciiState c →
     c ≠ sym_dot ∧ c ≠ sym_star ∧ c ≠ sym_plus) ∧
  (∀ depth state c,
     c ∈ [sym_dot; sym_star; sym_plus] →
     fst (check_self depth state c
            [mkState StartState [1]; mkState (AsciiState 97%N) [2];
             mkState DotState [3]; mkState TerminationState []]) = Ok true →
     wraps_dot
       [mkState StartState [1]; mkState (AsciiState 97%N) [2];
        mkState DotState [3]; mkState TerminationState []] state ∧
     ∀ o,
       [mkState StartState [1]; mkState (AsciiState 97%N) [2];
        mkState DotState [3]; mkState TerminationState []] !! state = Some o →
       ∀ s, cls o ≠ AsciiState s).
Proof.
  apply (literal_never_reserved (py_str "a.") (mkRegexFSM 0 3 0)).
  vm_compute. reflexivity.
Defined.

(** ** Termination of the search *)

Lemma check_self_ro_total (h : heap) c :
  heap_wf h →
  ∀ depth state, state < length h → state < depth →
    ∃ b, check_self_ro h depth state c = Ok b.
Proof.
  intros [_ Hinner _]. induction depth as [|d IH]; intros state Hlt Hd; [lia|].
  simpl. unfold cls_of.
  destruct (lookup_lt_is_Some_2 h state Hlt) as [o Ho]. rewrite Ho. simpl.
  destruct (cls o) as [| | |sym|i|i] eqn:Hcls; eauto.
  - assert (i < state) by (apply (Hinner _ o); auto). apply IH; lia.
  - assert (i < state) by (apply (Hinner _ o); auto). apply IH; lia.
Qed.

Lemma for_any_ro_total (f : ref → result bool) l :
  (∀ x, x ∈ l → ∃ b, f x = Ok b) → ∃ b, for_any_ro f l = Ok b.
Proof.
  induction l as [|x l IH]; intros Hf; simpl; [eauto|].
  destruct (Hf x) as [b Hb]; [left|]. rewrite Hb. simpl.
  destruct b; [eauto|]. apply IH. intros y Hy. apply Hf. by right.
Qed.

Lemma rank_le (h : heap) r : rank h r ≤ length h.
Proof.
  unfold rank. destruct (h !! r) as [o|]; [|lia].
  destruct (is_Repeat (cls o)); lia.
Qed.

Lemma rank_skip (h : heap) state o nxt :
  heap_wf h → skips_ascend h →
  h !! state = Some o → is_Repeat (cls o) = true → nxt ∈ next_states o →
  rank h nxt < rank h state.
Proof.
  intros [Hclosed _ _] Hasc Ho Hrep Hin.
  pose proof (lookup_lt_Some _ _ _ Ho) as Hlt.
  pose proof (Hclosed _ _ _ Ho Hin) as Hnlt.
  unfold rank. rewrite Ho, Hrep.
  destruct (lookup_lt_is_Some_2 h nxt Hnlt) as [ox Hox]. rewrite Hox.
  destruct (is_Repeat (cls ox)) eqn:Hrepx; [|lia].
  pose proof (Hasc _ _ _ _ Ho Hrep Hin Hox Hrepx). lia.
Qed.

Lemma dfs_ro_total (h : heap) s :
  heap_wf h → skips_ascend h →
  ∀ depth state idx,
    state < length h → dfs_depth h s state idx ≤ depth →
    ∃ b, dfs_ro h depth s state idx = Ok b.
Proof.
  intros Hwf Hasc. pose proof Hwf as [Hclosed _ _].
  induction depth as [|d IH]; intros state idx Hlt Hd.
  { unfold dfs_depth in Hd. nia. }
  simpl. unfold cls_of, next_of.
  destruct (lookup_lt_is_Some_2 h state Hlt) as [o Ho]. rewrite Ho. simpl.
  destruct (is_Termination (cls o)); [eauto|].
  assert (Hconsume : ∀ ch, s !! idx = Some ch →
    ∃ b, for_any_ro (λ nxt, dfs_ro h d s nxt (idx + 1)) (next_states o)
         = Ok b).
  { intros ch Hch. apply for_any_ro_total. intros nxt Hin.
    apply IH; [by apply (Hclosed _ _ _ Ho)|].
    pose proof (lookup_lt_Some _ _ _ Hch) as Hidx.
    pose proof (rank_le h nxt). unfold dfs_depth in *.
    replace (length s - idx) with (S (length s - (idx + 1))) in Hd by lia.
    simpl in Hd. nia. }
  assert (Hskip : is_Repeat (cls o) = true →
    ∃ b, for_any_ro (λ nxt, dfs_ro h d s nxt idx) (next_states o) = Ok b).
  { intros Hrep. apply for_any_ro_total. intros nxt Hin.
    apply IH; [by apply (Hclosed _ _ _ Ho)|].
    pose proof (rank_skip h state o nxt Hwf Hasc Ho Hrep Hin).
    unfold dfs_depth in *. nia. }
  assert (Hrest : ∃ b,
    (if is_Repeat (cls o)
     then for_any_ro (λ nxt, dfs_ro h d s nxt idx) (next_states o)
     else Ok false) = Ok b).
  { destruct (is_Repeat (cls o)); [by apply Hskip|eauto]. }
  destruct (s !! idx) as [ch|] eqn:Hch; simpl; [|done].
  destruct (check_self_ro_total h ch Hwf d state Hlt) as [ok Hok].
  { unfold dfs_depth in Hd. nia. }
  rewrite Hok. simpl. destruct ok; simpl; [|done].
  destruct (Hconsume ch eq_refl) as [hit Hhit]. rewrite Hhit. simpl.
  destruct hit; [eauto|done].
Qed.

Lemma check_string_ro_total (h : heap) self s :
  heap_wf h → skips_ascend h → start self < length h →
  ∃ b, ∀ depth,
    (length s + 2) * S (length h) ≤ depth →
    check_string_ro h depth self s = Ok b.
Proof.
  intros Hwf Hasc Hlt. pose proof Hwf as [Hclosed _ _].
  destruct (lookup_lt_is_Some_2 h (start self) Hlt) as [o Ho].
  assert (∃ b, check_string_ro h ((length s + 2) * S (length h)) self s
               = Ok b) as [b Hb].
  { unfold check_string_ro, next_of. rewrite Ho. simpl.
    apply for_any_ro_total. intros nxt Hin.
    apply (dfs_ro_total h s Hwf Hasc); [by apply (Hclosed _ _ _ Ho)|].
    pose proof (rank_le h nxt). unfold dfs_depth. nia. }
  exists b. intros depth Hd. by apply check_string_ro_mono with (1 := Hb).
Qed.

Lemma compile_skips_ascend p fsm (h : heap) :
  no_consecutive_quantifiers p = true →
  compile p = (Ok fsm, h) → skips_ascend h ∧ start fsm < length h.
Proof.
  intros Hnc Hc.
  destruct (compile_ok_inv _ _ _ Hc)
    as (v & h0 & c & cs & oc & Hpre & Hchain & Hoc & -> & ->).
  destruct (compile_prefix_inv _ _ _ Hpre) as (_ & _ & Hasc).
  split; [apply skips_ascend_push; auto|].
  rewrite heap_push_length. simpl. lia.
Qed.

Lemma star_star_overflow depth :
  matches depth (py_str "a**") [] = Raise RecursionError.
Proof.
  unfold matches.
  replace (compile (py_str "a**")) with
    (Ok (mkRegexFSM 0 4 0),
     [mkState StartState [3]; mkState (AsciiState 97%N) [2];
      mkState (StarState 1) [1; 3]; mkState (StarState 2) [2; 4];
      mkState TerminationState []]) by (vm_compute; reflexivity).
  rewrite check_string_run. simpl.
  set (h := [mkState StartState [3]; mkState (AsciiState 97%N) [2];
             mkState (StarState 1) [1; 3]; mkState (StarState 2) [2; 4];
             mkState TerminationState []]).
  assert (∀ n, dfs_ro h n [] 3 0 = Raise RecursionError ∧
               dfs_ro h n [] 2 0 = Raise RecursionError) as Hloop.
  { induction n as [|n [IH3 IH2]]; [done|]. split.
    - simpl. by rewrite IH2.
    - simpl. destruct n as [|n]; [done|]. rewrite IH3. reflexivity. }
  unfold check_string_ro. simpl. by rewrite (proj1 (Hloop depth)).
Qed.

(** The claim C1 as it is worded fails: the pattern a** compiles, and
    matching the empty string against its graph returns no boolean, whatever
    the depth of the stack. *)
Lemma consecutive_quantifiers_never_return :
  (∃ fsm h, compile (py_str "a**") = (Ok fsm, h)) ∧
  ¬ ∃ depth b, matches depth (py_str "a**") [] = Ok b.
Proof.
  split; [eexists _, _; vm_compute; reflexivity|].
  intros (depth & b & H). by rewrite star_star_overflow in H.
Qed.


(** ** The matcher does not tell [PlusState] from [StarState] *)

Lemma for_any_ro_ext (f g : ref → result bool) l :
  (∀ x, f x = g x) → for_any_ro f l = for_any_ro g l.
Proof.
  intros Hfg. induction l as [|x l IH]; simpl; [done|].
  by rewrite Hfg, IH.
Qed.

Lemma plus_to_star_kind_Termination k :
  is_Termination (plus_to_star_kind k) = is_Termination k.
Proof. by destruct k. Qed.

Lemma plus_to_star_kind_Repeat k :
  is_Repeat (plus_to_star_kind k) = is_Repeat k.
Proof. by destruct k. Qed.

Lemma cls_of_plus_to_star (h : heap) r :
  cls_of (plus_to_star h) r
  = let+ k := cls_of h r in Ok (plus_to_star_kind k).
Proof.
  unfold cls_of, plus_to_star. rewrite list_lookup_fmap.
  by destruct (h !! r).
Qed.

Lemma next_of_plus_to_star (h : heap) r :
  next_of (plus_to_star h) r = next_of h r.
Proof.
  unfold next_of, plus_to_star. rewrite list_lookup_fmap.
  by destruct (h !! r).
Qed.

Lemma check_self_ro_plus_to_star (h : heap) depth state c :
  check_self_ro (plus_to_star h) depth state c = check_self_ro h depth state c.
Proof.
  revert state. induction depth as [|d IH]; intros state; [done|].
  simpl. rewrite cls_of_plus_to_star.
  destruct (cls_of h state) as [k|e]; [|done]. simpl.
  destruct k; simpl; auto.
Qed.

Lemma dfs_ro_plus_to_star (h : heap) depth s state idx :
  dfs_ro (plus_to_star h) depth s state idx = dfs_ro h depth s state idx.
Proof.
  revert state idx. induction depth as [|d IH]; intros state idx; [done|].
  simpl. rewrite cls_of_plus_to_star, next_of_plus_to_star.
  destruct (cls_of h state) as [k|e]; [|done]. simpl.
  rewrite plus_to_star_kind_Termination, plus_to_star_kind_Repeat.
  destruct (is_Termination k); [done|].
  assert (Hany : ∀ i l,
    for_any_ro (λ nxt, dfs_ro (plus_to_star h) d s nxt i) l
    = for_any_ro (λ nxt, dfs_ro h d s nxt i) l).
  { intros i l. apply for_any_ro_ext. intros x. apply IH. }
  destruct (s !! idx) as [ch|]; simpl.
  - rewrite check_self_ro_plus_to_star.
    destruct (check_self_ro h d state ch) as [[|]|e]; simpl; try done.
    + destruct (next_of h state) as [nxts|e]; simpl; [|done].
      by rewrite !Hany.
    + destruct (is_Repeat k); [|done].
      destruct (next_of h state) as [nxts|e]; simpl; [|done].
      by rewrite Hany.
  - destruct (is_Repeat k); [|done].
    destruct (next_of h state) as [nxts|e]; simpl; [|done].
    by rewrite Hany.
Qed.

Lemma check_string_ro_plus_to_star (h : heap) depth self s :
  check_string_ro (plus_to_star h) depth self s
  = check_string_ro h depth self s.
Proof.
  unfold check_string_ro. rewrite next_of_plus_to_star.
  destruct (next_of h (start self)) as [nxts|e]; [|done]. simpl.
  apply for_any_ro_ext. intros x. apply dfs_ro_plus_to_star.
Qed.

(** ** Compiling with + turned into *

    The two compilations run in step: same locals, and heaps that differ
    only in the kind of their repeat states. *)

Lemma plus_to_star_lookup (hP hS : heap) r oP oS :
  plus_to_star hP = plus_to_star hS →
  hP !! r = Some oP → hS !! r = Some oS →
  plus_to_star_kind (cls oP) = plus_to_star_kind (cls oS) ∧
  next_states oP = next_states oS.
Proof.
  intros Heq HP HS. apply (f_equal (λ l, l !! r)) in Heq.
  unfold plus_to_star in Heq. rewrite !list_lookup_fmap, HP, HS in Heq.
  simpl in Heq. inversion Heq. auto.
Qed.

Lemma plus_to_star_length (hP hS : heap) :
  plus_to_star hP = plus_to_star hS → length hP = length hS.
Proof.
  intros Heq. apply (f_equal length) in Heq.
  unfold plus_to_star in Heq. by rewrite !length_fmap in Heq.
Qed.

Lemma heap_push_sim kP kS parent opP opS (hP hS : heap) :
  plus_to_star hP = plus_to_star hS →
  plus_to_star_kind kP = plus_to_star_kind kS →
  plus_to_star_kind (cls opP) = plus_to_star_kind (cls opS) →
  next_states opP = next_states opS →
  plus_to_star (heap_push kP parent opP hP)
  = plus_to_star (heap_push kS parent opS hS).
Proof.
  intros Heq Hk Hcls Hnext. pose proof (plus_to_star_length _ _ Heq) as Hlen.
  unfold heap_push, plus_to_star in *.
  rewrite !list_fmap_insert, !fmap_app, Heq, Hlen, Hnext. simpl.
  unfold plus_to_star_obj. simpl. by rewrite Hk, Hcls.
Qed.

Lemma heap_wrap_sim kP kS inner p oiP oiS opP opS (hP hS : heap) :
  plus_to_star hP = plus_to_star hS →
  plus_to_star_kind kP = plus_to_star_kind kS →
  plus_to_star_kind (cls oiP) = plus_to_star_kind (cls oiS) →
  next_states oiP = next_states oiS →
  plus_to_star_kind (cls opP) = plus_to_star_kind (cls opS) →
  next_states opP = next_states opS →
  plus_to_star (heap_wrap kP inner p oiP opP hP)
  = plus_to_star (heap_wrap kS inner p oiS opS hS).
Proof.
  intros Heq Hk Hci Hni Hcp Hnp.
  pose proof (plus_to_star_length _ _ Heq) as Hlen.
  unfold heap_wrap, plus_to_star in *.
  rewrite !list_fmap_insert, !fmap_app, Heq, Hlen, Hni, Hnp. simpl.
  unfold plus_to_star_obj. simpl. by rewrite Hk, Hci, Hcp.
Qed.

Lemma star_of_cases c :
  is_unit (star_of c) = is_unit c ∧
  is_quantifier (star_of c) = is_quantifier c ∧
  isascii (star_of c) = isascii c ∧
  (is_unit c = true → star_of c = c) ∧
  (∀ inner, plus_to_star_kind (repeat_kind c inner)
            = plus_to_star_kind (repeat_kind (star_of c) inner)).
Proof.
  unfold star_of, repeat_kind, is_unit, is_quantifier, isascii,
    sym_dot, sym_star, sym_plus.
  destruct (N.eqb c 43) eqn:E; simpl.
  - apply N.eqb_eq in E. by subst c.
  - rewrite ?E. repeat split; auto.
Qed.

Lemma loop_body_sim ch i v (hP hS : heap) v' hP' :
  heap_wf hP → top_ok hP v → heap_wf hS → top_ok hS v →
  plus_to_star hP = plus_to_star hS →
  loop_body 0 ch i v hP = (Ok v', hP') →
  ∃ hS', loop_body 0 (star_of ch) i v hS = (Ok v', hS') ∧
         plus_to_star hP' = plus_to_star hS'.
Proof.
  intros HwfP HtopP HwfS HtopS Heq Hrun.
  pose proof (plus_to_star_length _ _ Heq) as Hlen.
  destruct (star_of_cases ch) as (Hsu & Hsq & Hsa & Hsame & Hkind).
  pose proof HtopP as (c & cs & q & ps & Hchain & Hpreds & _ & HltP & _).
  destruct (char_cases ch) as [(Hu & Hnq & _)|[(Hq & _ & _ & _)|(Ha & _)]].
  - rewrite (Hsame Hu).
    destruct (lookup_lt_is_Some_2 hP c HltP) as [ocP HcP].
    assert (c < length hS) as HltS by lia.
    destruct (lookup_lt_is_Some_2 hS c HltS) as [ocS HcS].
    rewrite (loop_body_unit _ _ _ _ _ _ _ _ Hu Hchain HcP) in Hrun.
    inversion Hrun; subst v' hP'.
    rewrite (loop_body_unit _ _ _ _ _ _ _ _ Hu Hchain HcS).
    rewrite Hlen. eexists. split; [done|].
    destruct (plus_to_star_lookup _ _ _ _ _ Heq HcP HcS) as (Hcls & Hnext).
    by apply heap_push_sim.
  - destruct cs as [|c2 cs].
    { rewrite loop_body_dangling in Hrun; [done|done|].
      rewrite Hchain. simpl. lia. }
    destruct (top_ok_unit hP v c c2 cs HtopP Hchain)
      as (p & ps' & oiP & opP & lP & Hpreds' & _ & Hpc & HiP & HpP & _).
    destruct (top_ok_unit hS v c c2 cs HtopS Hchain)
      as (p0 & ps0 & oiS & opS & lS & Hpreds0 & _ & _ & HiS & HpS & _).
    rewrite Hpreds' in Hpreds0. inversion Hpreds0; subst p0 ps0.
    rewrite (loop_body_quantifier _ _ _ _ _ _ _ _ _ _ _ _
               Hq Hchain Hpreds' HiP HpP) in Hrun by lia.
    inversion Hrun; subst v' hP'.
    rewrite <-Hsq in Hq.
    rewrite (loop_body_quantifier _ _ _ _ _ _ _ _ _ _ _ _
               Hq Hchain Hpreds' HiS HpS) by lia.
    rewrite Hlen. eexists. split; [done|].
    destruct (plus_to_star_lookup _ _ _ _ _ Heq HiP HiS) as (Hci & Hni).
    destruct (plus_to_star_lookup _ _ _ _ _ Heq HpP HpS) as (Hcp & Hnp).
    by apply heap_wrap_sim.
  - by rewrite loop_body_unsupported in Hrun.
Qed.

Lemma loop_sim rest : ∀ i v (hP hS : heap) v' hP',
  heap_wf hP → top_ok hP v → heap_wf hS → top_ok hS v →
  plus_to_star hP = plus_to_star hS →
  loop 0 rest i v hP = (Ok v', hP') →
  ∃ hS', loop 0 (star_of <$> rest) i v hS = (Ok v', hS') ∧
         plus_to_star hP' = plus_to_star hS'.
Proof.
  induction rest as [|c rest IH];
    intros i v hP hS v' hP' HwfP HtopP HwfS HtopS Heq Hrun.
  { inversion Hrun; subst v' hP'. by exists hS. }
  rewrite loop_cons in Hrun.
  destruct (loop_body 0 c i v hP) as [[v1|e] hP1] eqn:HbodyP; [|done].
  destruct (loop_body_sim _ _ _ _ _ _ _ HwfP HtopP HwfS HtopS Heq HbodyP)
    as (hS1 & HbodyS & Heq1).
  destruct (loop_body_preserves _ _ _ _ _ _ _ HwfP HtopP HbodyP)
    as (HwfP1 & HtopP1 & _).
  destruct (loop_body_preserves _ _ _ _ _ _ _ HwfS HtopS HbodyS)
    as (HwfS1 & HtopS1 & _).
  rewrite fmap_cons, loop_cons, HbodyS.
  by apply (IH _ _ hP1).
Qed.

Lemma compile_sim p fsm (hP : heap) :
  compile p = (Ok fsm, hP) →
  ∃ hS, compile (star_of <$> p) = (Ok fsm, hS) ∧
        plus_to_star hP = plus_to_star hS.
Proof.
  intros Hc.
  destruct (compile_ok_inv _ _ _ Hc)
    as (v & h & c & cs & ocP & Hpre & Hchain & HocP & -> & ->).
  pose proof Hpre as Hrun. rewrite compile_prefix_unfold in Hrun.
  destruct (loop_sim _ _ _ _ _ _ _ heap_wf_init top_ok_init
              heap_wf_init top_ok_init eq_refl Hrun) as (hS & HrunS & Heq).
  rewrite <-compile_prefix_unfold in HrunS.
  pose proof (plus_to_star_length _ _ Heq) as Hlen.
  assert (c < length hS) as HltS.
  { rewrite <-Hlen. by apply lookup_lt_Some in HocP. }
  destruct (lookup_lt_is_Some_2 hS c HltS) as [ocS HocS].
  rewrite (compile_finish _ _ _ _ _ _ HrunS Hchain HocS).
  rewrite Hlen. eexists. split; [done|].
  destruct (plus_to_star_lookup _ _ _ _ _ Heq HocP HocS) as (Hcls & Hnext).
  by apply heap_push_sim.
Qed.

(** The graph of a unit followed by a quantifier. *)
Lemma compile_unit_quantifier u q :
  is_unit u = true → is_quantifier q = true →
  compile [u; q]
  = (Ok (mkRegexFSM 0 3 0),
     [mkState StartState [2]; mkState (unit_kind u) [2];
      mkState (repeat_kind q 1) [1; 3]; mkState TerminationState []]).
Proof.
  intros Hu Hq.
  assert (compile_prefix [u; q]
          = (Ok (mkLocals [2; 0] [Some 0; None]),
             [mkState StartState [2]; mkState (unit_kind u) [2];
              mkState (repeat_kind q 1) [1]])) as Hpre.
  { rewrite compile_prefix_unfold, loop_cons.
    rewrite (loop_body_unit _ _ _ _ 0 [] _ (mkState StartState []) Hu)
      by done.
    rewrite loop_cons.
    rewrite (loop_body_quantifier _ _ _ _ 1 0 [] 0 [None] _
               (mkState (unit_kind u) []) (mkState StartState [1]) Hq)
      by done.
    reflexivity. }
  by rewrite (compile_finish _ _ _ 2 [0] (mkState (repeat_kind q 1) [1]) Hpre).
Qed.

Lemma returns_total p fsm (h : heap) s :
  no_consecutive_quantifiers p = true → compile p = (Ok fsm, h) →
  ∃ b, returns p s b.
Proof.
  intros Hnc Hc.
  destruct (compile_skips_ascend _ _ _ Hnc Hc) as [Hasc Hstart].
  destruct (check_string_ro_total h fsm s (compile_heap_wf _ _ _ Hc)
              Hasc Hstart) as [b Hb].
  exists b, ((length s + 2) * S (length h)). intros depth Hd.
  unfold matches. rewrite Hc, check_string_run. simpl. by apply Hb.
Qed.


(** * Further properties of the matcher and the compiler *)

(** ** The search is exhaustive *)

Lemma accepting_run_alt (h : heap) self s :
  accepting_run h self s
  ↔ ∃ o nxt, h !! start self = Some o ∧ nxt ∈ next_states o ∧
             accepts_from h s nxt 0.
Proof.
  unfold accepting_run, accepts_from. split.
  - intros (o & nxt & t & Ho & Hin & Hrtc & Ht). exists o, nxt. eauto.
  - intros (o & nxt & Ho & Hin & t & Hrtc & Ht). exists o, nxt, t. auto.
Qed.

Lemma for_any_ro_false (f : ref → result bool) l :
  for_any_ro f l = Ok false → ∀ x, x ∈ l → f x = Ok false.
Proof.
  induction l as [|y l IH]; simpl; intros H x Hx.
  { by apply elem_of_nil in Hx. }
  destruct (f y) as [[|]|e] eqn:Hfy; simpl in H; try done.
  apply elem_of_cons in Hx as [->|Hx]; auto.
Qed.

Lemma check_self_ro_det (h : heap) d d' state c b b' :
  check_self_ro h d state c = Ok b → check_self_ro h d' state c = Ok b' →
  b = b'.
Proof.
  intros H H'.
  apply (check_self_ro_mono h d (d `max` d')) in H; [|lia].
  apply (check_self_ro_mono h d' (d `max` d')) in H'; [|lia].
  congruence.
Qed.

Lemma dfs_ro_complete (h : heap) depth s state idx :
  dfs_ro h depth s state idx = Ok false → ¬ accepts_from h s state idx.
Proof.
  revert state idx. induction depth as [|d IH]; intros state idx; [done|].
  simpl. unfold cls_of at 1, next_of.
  destruct (h !! state) as [o|] eqn:Ho; [|done]. simpl.
  intros Hdfs (t & Hrtc & Ht).
  apply rtc_inv in Hrtc as [Heq|([nxt j] & Hmove & Hrtc)].
  { inversion Heq; subst t idx. unfold cls_of in Ht. rewrite Ho in Ht.
    inversion Ht as [Hcls]. rewrite Hcls in Hdfs. simpl in Hdfs.
    rewrite Nat.eqb_refl in Hdfs. done. }
  destruct Hmove as (o' & Ho' & Hterm & Hin & Hkind). simpl in *.
  rewrite Ho in Ho'. inversion Ho'; subst o'. rewrite Hterm in Hdfs.
  assert (accepts_from h s nxt j) as Hacc by (by exists t).
  assert (Hnone : ∀ i,
    for_any_ro (λ nxt, dfs_ro h d s nxt i) (next_states o) = Ok false →
    i ≠ j).
  { intros i Hany ->. by apply (IH nxt j (for_any_ro_false _ _ Hany nxt Hin)). }
  destruct Hkind as [[-> (ch & d0 & Hch & Hok0)]|[-> Hrep]].
  - rewrite Hch in Hdfs. simpl in Hdfs.
    destruct (check_self_ro h d state ch) as [ok|e] eqn:Hok; [|done].
    rewrite (check_self_ro_det _ _ _ _ _ _ _ Hok Hok0) in Hdfs. simpl in Hdfs.
    destruct (for_any_ro _ (next_states o)) as [[|]|e] eqn:Hhit; try done.
    by apply (Hnone (idx + 1)).
  - rewrite Hrep in Hdfs.
    destruct (s !! idx) as [ch|]; simpl in Hdfs.
    + destruct (check_self_ro h d state ch) as [[|]|e]; simpl in Hdfs;
        try done.
      * destruct (for_any_ro (λ nxt, dfs_ro h d s nxt (idx + 1)) _)
          as [[|]|e]; simpl in Hdfs; try done.
        by apply (Hnone idx).
      * by apply (Hnone idx).
    + by apply (Hnone idx).
Qed.

(** X1: whenever [check_string] returns, on any heap and with any stack, it
    returns [True] exactly when the moves of the search can lead from a
    successor of the start state at index 0 to a termination state at the
    end of the text: the backtracking misses no accepting run. *)
Theorem check_string_decides depth self s (h : heap) b :
  fst (check_string depth self s h) = Ok b →
  (b = true ↔ accepting_run h self s).
Proof.
  intros Hrun. destruct b.
  { split; [intros _|done]. by apply (check_string_sound depth). }
  split; [done|]. intros Hacc. exfalso.
  rewrite check_string_run in Hrun. simpl in Hrun.
  unfold check_string_ro, next_of in Hrun.
  apply accepting_run_alt in Hacc as (o & nxt & Ho & Hin & Hacc).
  rewrite Ho in Hrun. simpl in Hrun.
  by apply (dfs_ro_complete h depth s nxt 0
              (for_any_ro_false _ _ Hrun nxt Hin)).
Qed.

Lemma check_string_decides_witness :
  false = true
  ↔ accepting_run
      [mkState StartState [1]; mkState (AsciiState 97%N) [2];
       mkState TerminationState []]
      (mkRegexFSM 0 2 0) (py_str "ab").
Proof.
  apply (check_string_decides 3). vm_compute. reflexivity.
Defined.

(** X2: a value that [check_string] returns does not depend on the depth of
    the stack: with a deeper stack the call returns the same boolean. *)
Theorem check_string_depth_mono depth depth' self s (h : heap) b :
  fst (check_string depth self s h) = Ok b → depth ≤ depth' →
  fst (check_string depth' self s h) = Ok b.
Proof.
  rewrite !check_string_run. simpl. apply check_string_ro_mono.
Qed.

Lemma check_string_depth_mono_witness :
  fst (check_string 7 (mkRegexFSM 0 2 0) (py_str "a")
         [mkState StartState [1]; mkState (AsciiState 97%N) [2];
          mkState TerminationState []]) = Ok true.
Proof.
  apply (check_string_depth_mono 2); [vm_compute; reflexivity|lia].
Defined.

(** ** The exceptions of the compiler *)

(** X3: [compile] raises nothing but the "Nothing to repeat" [ValueError],
    at position 0, and the "Unsupported character" [AttributeError]: the
    [pop] and [[-1]] of the loop never meet an empty list. *)
Theorem compile_exceptions p e :
  fst (compile p) = Raise e →
  (∃ c, e = ValueError c 0 ∧ is_quantifier c = true) ∨
  (∃ c, e = AttributeError c ∧ isascii c = false ∧ c ∈ p).
Proof.
  intros Hc.
  destruct (compile_classify p)
    as [(Hq & c & rest & h & -> & Hrun)
       |[(_ & _ & fsm & h & Hrun)
        |(_ & pre & x & post & h & -> & _ & Hx & Hrun)]];
    rewrite Hrun in Hc; simpl in Hc; inversion Hc; subst e.
  - left. exists c. split; [done|]. done.
  - right. exists x. split; [done|]. split; [done|].
    apply elem_of_app. right. left.
Qed.

Lemma compile_exceptions_witness :
  (∃ c, AttributeError 233%N = ValueError c 0 ∧ is_quantifier c = true) ∨
  (∃ c, AttributeError 233%N = AttributeError c ∧ isascii c = false ∧
        c ∈ [97%N; 233%N]).
Proof.
  apply (compile_exceptions [97%N; 233%N]). vm_compute. reflexivity.
Defined.

(** ** The scan that rewires the parent *)

Lemma replace_first_middle inner node l1 l2 :
  inner ∉ l1 →
  replace_first inner node (l1 ++ inner :: l2) = l1 ++ node :: l2.
Proof.
  induction l1 as [|x l1 IH]; simpl; intros Hnin.
  { by rewrite Nat.eqb_refl. }
  apply not_elem_of_cons in Hnin as [Hne Hnin].
  destruct (Nat.eqb_spec x inner) as [->|_]; [done|]. by rewrite IH.
Qed.

Lemma replace_first_absent inner node l :
  inner ∉ l → replace_first inner node l = l.
Proof.
  induction l as [|x l IH]; simpl; intros Hnin; [done|].
  apply not_elem_of_cons in Hnin as [Hne Hnin].
  destruct (Nat.eqb_spec x inner) as [->|_]; [done|]. by rewrite IH.
Qed.

Lemma not_elem_of_rev (x : nat) l : x ∉ l → x ∉ rev l.
Proof.
  intros Hnin Hin. apply Hnin.
  by apply list_elem_of_In, in_rev, list_elem_of_In in Hin.
Qed.

(** X4: the scan of lines 122-125 overwrites the last entry of the list
    that is [inner] and no other entry; a list without [inner] is left as it
    is; the length of the list never changes. *)
Theorem replace_last_spec inner node :
  (∀ l1 l2, inner ∉ l2 →
     replace_last inner node (l1 ++ inner :: l2) = l1 ++ node :: l2) ∧
  (∀ l, inner ∉ l → replace_last inner node l = l) ∧
  (∀ l, length (replace_last inner node l) = length l).
Proof.
  unfold replace_last. split; [|split].
  - intros l1 l2 Hnin.
    rewrite rev_app_distr. simpl. rewrite <-app_assoc. simpl.
    rewrite replace_first_middle by (by apply not_elem_of_rev).
    rewrite rev_app_distr. simpl. rewrite !rev_involutive.
    by rewrite <-app_assoc.
  - intros l Hnin.
    rewrite replace_first_absent by (by apply not_elem_of_rev).
    apply rev_involutive.
  - intros l. rewrite length_rev. rewrite <-(length_rev l).
    generalize (rev l). intros k.
    induction k as [|x k IH]; simpl; [done|].
    destruct (Nat.eqb x inner); simpl; auto.
Qed.

Lemma replace_last_spec_witness :
  replace_last 1 9 ([1; 2] ++ 1 :: [3]) = [1; 2] ++ 9 :: [3].
Proof.
  apply (proj1 (replace_last_spec 1 9)).
  intros Hin. apply list_elem_of_singleton in Hin. discriminate.
Defined.

(** ** What a state accepts, by its place in the graph *)

Lemma check_self_plain (h : heap) n o c :
  h !! n = Some o → is_plain (cls o) = true →
  (∃ d, check_self_ro h d n c = Ok true) ↔ accepts_kind (cls o) c = true.
Proof.
  intros Ho Hplain. split.
  - intros [[|d] Hd]; [done|]. simpl in Hd. unfold cls_of in Hd.
    rewrite Ho in Hd. simpl in Hd. destruct (cls o); try done.
    by inversion Hd.
  - intros Hacc. exists 1. simpl. unfold cls_of. rewrite Ho. simpl.
    destruct (cls o); try done. simpl in Hacc. by rewrite Hacc.
Qed.

Lemma check_self_repeat (h : heap) r o n on c :
  h !! r = Some o → cls o = StarState n ∨ cls o = PlusState n →
  h !! n = Some on → is_plain (cls on) = true →
  (∃ d, check_self_ro h d r c = Ok true) ↔ accepts_kind (cls on) c = true.
Proof.
  intros Ho Hcls Hon Hplain.
  rewrite <-(check_self_plain h n on c Hon Hplain). split.
  - intros [[|d] Hd]; [done|]. simpl in Hd. unfold cls_of in Hd.
    rewrite Ho in Hd. simpl in Hd. exists d.
    by destruct Hcls as [Hc|Hc]; rewrite Hc in Hd.
  - intros [d Hd]. exists (S d). simpl. unfold cls_of. rewrite Ho. simpl.
    by destruct Hcls as [Hc|Hc]; rewrite Hc.
Qed.

Lemma accepts_from_term (h : heap) s t o i :
  h !! t = Some o → cls o = TerminationState →
  (accepts_from h s t i ↔ i = length s).
Proof.
  intros Ho Hcls. split.
  - intros (t' & Hrtc & _).
    apply rtc_inv in Hrtc as [Heq|(b & Hmove & _)]; [by inversion Heq|].
    destruct Hmove as (o' & Ho' & Hterm & _). simpl in Ho'.
    rewrite Ho in Ho'. inversion Ho'; subst o'. by rewrite Hcls in Hterm.
  - intros ->. exists t. split; [apply rtc_refl|].
    unfold cls_of. by rewrite Ho, Hcls.
Qed.

Lemma accepts_from_step (h : heap) s a b :
  move h s a b → accepts_from h s b.1 b.2 → accepts_from h s a.1 a.2.
Proof.
  intros Hmove (t & Hrtc & Ht). exists t. split; [|done].
  destruct a as [a1 a2], b as [b1 b2]. by apply rtc_l with (b1, b2).
Qed.

Lemma accepts_from_plain (h : heap) s n k x i :
  h !! n = Some (mkState k [x]) → is_plain k = true →
  (accepts_from h s n i
   ↔ ∃ c, s !! i = Some c ∧ accepts_kind k c = true ∧
          accepts_from h s x (i + 1)).
Proof.
  intros Hn Hplain. split.
  - intros (t & Hrtc & Ht).
    apply rtc_inv in Hrtc as [Heq|([b1 b2] & Hmove & Hrtc)].
    { inversion Heq; subst t. unfold cls_of in Ht. rewrite Hn in Ht.
      simpl in Ht. inversion Ht; subst k. done. }
    destruct Hmove as (o & Ho & _ & Hin & Hkind). simpl in *.
    rewrite Hn in Ho. inversion Ho; subst o. simpl in *.
    apply list_elem_of_singleton in Hin as ->.
    destruct Hkind as [[-> (ch & d & Hch & Hok)]|[_ Hrep]].
    + exists ch. split; [done|]. split; [|by exists t].
      apply (check_self_plain h n (mkState k [x]) ch Hn Hplain). eauto.
    + by destruct k.
  - intros (c & Hc & Hacc & Hx).
    apply (accepts_from_step h s (n, i) (x, i + 1)); [|done].
    exists (mkState k [x]). simpl. split; [done|].
    split; [by destruct k|]. split; [left|]. left. split; [done|].
    apply (check_self_plain h n (mkState k [x]) c Hn Hplain) in Hacc
      as [d Hd].
    eauto.
Qed.

Lemma accepts_from_repeat (h : heap) s r K n k x i :
  h !! r = Some (mkState K [n; x]) → K = StarState n ∨ K = PlusState n →
  h !! n = Some (mkState k [r]) → is_plain k = true →
  (accepts_from h s r i
   ↔ accepts_from h s x i ∨
     ∃ c, s !! i = Some c ∧ accepts_kind k c = true ∧
          accepts_from h s r (i + 1)).
Proof.
  intros Hr HK Hn Hplain.
  assert (is_Termination K = false ∧ is_Repeat K = true) as [HKt HKr]
    by (by destruct HK as [->| ->]).
  assert (Hskip : ∀ y j, y ∈ [n; x] → accepts_from h s y j →
                         accepts_from h s r j).
  { intros y j Hy Hacc. apply (accepts_from_step h s (r, j) (y, j)); [|done].
    exists (mkState K [n; x]). simpl. auto 10. }
  assert (Hn_iff := accepts_from_plain h s n k r i Hn Hplain).
  split.
  - intros (t & Hrtc & Ht).
    apply rtc_inv in Hrtc as [Heq|([b1 b2] & Hmove & Hrtc)].
    { inversion Heq; subst t. unfold cls_of in Ht. rewrite Hr in Ht.
      simpl in Ht. inversion Ht; subst K. done. }
    destruct Hmove as (o & Ho & _ & Hin & Hkind). simpl in *.
    rewrite Hr in Ho. inversion Ho; subst o. simpl in *.
    assert (accepts_from h s b1 b2) as Hb by (by exists t).
    destruct Hkind as [[-> (ch & d & Hch & Hok)]|[-> _]].
    + right. exists ch. split; [done|].
      split; [|by apply (Hskip b1)].
      apply (check_self_repeat h r (mkState K [n; x]) n (mkState k [r]) ch
               Hr HK Hn Hplain). eauto.
    + apply elem_of_cons in Hin as [->|Hin].
      * right. by apply Hn_iff.
      * apply list_elem_of_singleton in Hin as ->. by left.
  - intros [Hx|Hloop].
    + apply (Hskip x); [|done]. right. left.
    + apply (Hskip n); [left|]. by apply Hn_iff.
Qed.

(** From a repeat state: any number of accepted characters, then on. *)
Lemma accepts_from_star (h : heap) s r K n k x :
  h !! r = Some (mkState K [n; x]) → K = StarState n ∨ K = PlusState n →
  h !! n = Some (mkState k [r]) → is_plain k = true →
  ∀ i,
    accepts_from h s r i
    ↔ ∃ s1 s2, drop i s = s1 ++ s2 ∧
               Forall (λ c, accepts_kind k c = true) s1 ∧
               accepts_from h s x (i + length s1).
Proof.
  intros Hr HK Hn Hplain.
  assert (Hiff := accepts_from_repeat h s r K n k x).
  intros i. split.
  - remember (length s - i) as m eqn:Hm. revert i Hm.
    induction m as [m IH] using lt_wf_ind. intros i Hm Hacc.
    apply Hiff in Hacc as [Hx|(c & Hc & Hacc & Hloop)]; try done.
    + exists [], (drop i s). simpl. rewrite Nat.add_0_r. auto.
    + pose proof (lookup_lt_Some _ _ _ Hc) as Hlt.
      destruct (IH (length s - (i + 1)) ltac:(lia) (i + 1) eq_refl Hloop)
        as (s1 & s2 & Hdrop & Hall & Hx).
      exists (c :: s1), s2. split; [|split].
      * rewrite (drop_S _ _ _ Hc). simpl. f_equal.
        by rewrite <-Nat.add_1_r.
      * by constructor.
      * simpl. by rewrite <-Nat.add_assoc in Hx.
  - intros (s1 & s2 & Hdrop & Hall & Hx). revert i Hdrop Hx.
    induction Hall as [|c s1 Hc Hall IH]; intros i Hdrop Hx.
    + simpl in Hx. rewrite Nat.add_0_r in Hx. apply Hiff; auto.
    + simpl in Hdrop.
      assert (s !! i = Some c) as Hi.
      { rewrite <-(Nat.add_0_r i), <-lookup_drop, Hdrop. done. }
      apply Hiff; try done. right. exists c. split; [done|]. split; [done|].
      apply IH.
      * rewrite Nat.add_1_r. rewrite (drop_S _ _ _ Hi) in Hdrop.
        by inversion Hdrop.
      * simpl in Hx. by rewrite <-Nat.add_assoc.
Qed.

Lemma chain_lang (h : heap) s term ot its : ∀ a i,
  h !! term = Some ot → cls ot = TerminationState →
  chain h a its term → i ≤ length s →
  (accepts_from h s (entry a its term) i ↔ lang its (drop i s)).
Proof.
  induction its as [|[k [|]] its IH]; intros a i Hterm Hcls Hchain Hi; simpl.
  - rewrite (accepts_from_term h s term ot i Hterm Hcls). split.
    + intros ->. apply drop_all.
    + intros Hnil. apply drop_nil_inv in Hnil. lia.
  - destruct Hchain as (Hplain & Hn & (K & HK & Hr) & Hchain).
    rewrite (accepts_from_star h s (S a) K a k _ Hr HK Hn Hplain i).
    split.
    + intros (s1 & s2 & Hdrop & Hall & Hx). exists s1, s2.
      split; [done|]. split; [done|].
      assert (length (drop i s) = length s1 + length s2) as Hlen
        by (by rewrite Hdrop, length_app).
      rewrite length_drop in Hlen.
      apply (IH _ _ Hterm Hcls Hchain) in Hx; [|lia].
      rewrite <-drop_drop, Hdrop, drop_app_length in Hx. done.
    + intros (s1 & s2 & Hdrop & Hall & Hx). exists s1, s2.
      split; [done|]. split; [done|].
      assert (length (drop i s) = length s1 + length s2) as Hlen
        by (by rewrite Hdrop, length_app).
      rewrite length_drop in Hlen.
      apply (IH _ _ Hterm Hcls Hchain); [lia|].
      by rewrite <-drop_drop, Hdrop, drop_app_length.
  - destruct Hchain as (Hplain & Hn & Hchain).
    rewrite (accepts_from_plain h s a k _ i Hn Hplain). split.
    + intros (c & Hc & Hacc & Hx). exists c, (drop (i + 1) s).
      pose proof (lookup_lt_Some _ _ _ Hc) as Hlt.
      split; [by rewrite (drop_S _ _ _ Hc), Nat.add_1_r|].
      split; [done|].
      apply (IH (S a) (i + 1) Hterm Hcls Hchain); [lia|done].
    + intros (c & s' & Hdrop & Hacc & Hx).
      assert (s !! i = Some c) as Hc.
      { rewrite <-(Nat.add_0_r i), <-lookup_drop, Hdrop. done. }
      pose proof (lookup_lt_Some _ _ _ Hc) as Hlt.
      exists c. split; [done|]. split; [done|].
      apply (IH (S a) (i + 1) Hterm Hcls Hchain); [lia|].
      rewrite (drop_S _ _ _ Hc) in Hdrop. inversion Hdrop as [Hs'].
      by rewrite Nat.add_1_r, Hs'.
Qed.

(** ** The layout of the items in the heap *)

Lemma items_size_app its1 its2 :
  items_size (its1 ++ its2) = items_size its1 + items_size its2.
Proof.
  induction its1 as [|[k [|]] its1 IH]; simpl; [done| |]; by rewrite IH.
Qed.

Lemma items_size_pos its : its ≠ [] → 0 < items_size its.
Proof. destruct its as [|[k [|]] its]; simpl; [done| |]; lia. Qed.

Lemma chain_frame (h1 h2 : heap) its : ∀ a x,
  (∀ r, a ≤ r < a + items_size its → h2 !! r = h1 !! r) →
  chain h1 a its x → chain h2 a its x.
Proof.
  induction its as [|[k [|]] its IH]; intros a x Hsame; simpl; [done| |].
  - intros (Hplain & Hn & (K & HK & Hr) & Hchain). simpl in Hsame.
    split; [done|]. split; [by rewrite Hsame by lia|].
    split; [exists K; split; [done|]; by rewrite Hsame by lia|].
    apply IH; [|done]. intros r Hr'. apply Hsame. lia.
  - intros (Hplain & Hn & Hchain). simpl in Hsame.
    split; [done|]. split; [by rewrite Hsame by lia|].
    apply IH; [|done]. intros r Hr'. apply Hsame. lia.
Qed.

Lemma entry_app a its1 its2 x :
  entry a (its1 ++ its2) x = entry a its1 (entry (a + items_size its1) its2 x).
Proof.
  destruct its1 as [|[k [|]] its1]; simpl; [|done|done].
  by rewrite Nat.add_0_r.
Qed.

Lemma chain_app (h : heap) its1 its2 : ∀ a x,
  chain h a (its1 ++ its2) x
  ↔ chain h a its1 (entry (a + items_size its1) its2 x) ∧
    chain h (a + items_size its1) its2 x.
Proof.
  induction its1 as [|[k [|]] its1 IH]; intros a x; simpl.
  - rewrite Nat.add_0_r. tauto.
  - rewrite IH, entry_app.
    replace (S (S a) + items_size its1) with (a + S (S (items_size its1)))
      by lia.
    tauto.
  - rewrite IH, entry_app.
    replace (S a + items_size its1) with (a + S (items_size its1)) by lia.
    tauto.
Qed.

(** Changing the last successor of the last state of a sequence of items
    changes what the items lead to. *)
Lemma chain_redirect (h1 h2 : heap) its : ∀ a x x' kp l,
  its ≠ [] →
  (∀ r, a ≤ r < a + items_size its - 1 → h2 !! r = h1 !! r) →
  h1 !! (a + items_size its - 1) = Some (mkState kp (l ++ [x])) →
  h2 !! (a + items_size its - 1) = Some (mkState kp (l ++ [x'])) →
  chain h1 a its x → chain h2 a its x'.
Proof.
  induction its as [|[k [|]] its IH]; intros a x x' kp l Hne Hsame H1 H2;
    simpl; [done| |].
  - intros (Hplain & Hn & (K & HK & Hr) & Hchain). simpl in *.
    destruct its as [|it its].
    + simpl in *. replace (a + 2 - 1) with (S a) in * by lia.
      rewrite Hr in H1. inversion H1 as [[HKp Hl]].
      change [a; x] with ([a] ++ [x]) in Hl.
      apply app_inj_tail in Hl as [<- _]. subst kp.
      split; [done|]. split; [by rewrite Hsame by lia|].
      split; [|done]. exists K. split; [done|]. by rewrite H2.
    + split; [done|]. split; [by rewrite Hsame by (simpl; lia)|].
      assert (0 < items_size (it :: its)) by (by apply items_size_pos).
      split.
      { exists K. split; [done|].
        rewrite Hsame by lia. by destruct it as [? [|]]. }
      apply (IH (S (S a)) x x' kp l); [done| | | |done].
      * intros r Hr'. apply Hsame. lia.
      * by replace (S (S a) + items_size (it :: its) - 1)
          with (a + S (S (items_size (it :: its))) - 1) by lia.
      * by replace (S (S a) + items_size (it :: its) - 1)
          with (a + S (S (items_size (it :: its))) - 1) by lia.
  - intros (Hplain & Hn & Hchain). simpl in *.
    destruct its as [|it its].
    + simpl in *. replace (a + 1 - 1) with a in * by lia.
      rewrite Hn in H1. inversion H1 as [[HKp Hl]].
      change [x] with ([] ++ [x]) in Hl.
      apply app_inj_tail in Hl as [<- _]. subst kp.
      split; [done|]. split; [by rewrite H2|done].
    + assert (0 < items_size (it :: its)) by (by apply items_size_pos).
      split; [done|].
      split; [rewrite Hsame by lia; by destruct it as [? [|]]|].
      apply (IH (S a) x x' kp l); [done| | | |done].
      * intros r Hr'. apply Hsame. lia.
      * by replace (S a + items_size (it :: its) - 1)
          with (a + S (items_size (it :: its)) - 1) by lia.
      * by replace (S a + items_size (it :: its) - 1)
          with (a + S (items_size (it :: its)) - 1) by lia.
Qed.

Lemma close_top (h : heap) top x o :
  h !! top = Some o →
  close h top x !! top = Some (mkState (cls o) (next_states o ++ [x])).
Proof. intros Ho. unfold close. by rewrite list_lookup_alter_eq, Ho. Qed.

Lemma close_other (h : heap) top x r :
  r ≠ top → close h top x !! r = h !! r.
Proof. intros Hne. unfold close. by rewrite list_lookup_alter_ne. Qed.

Lemma star_last_snoc pre k b :
  star_last (pre ++ [(k, b)]) = pre ++ [(k, true)].
Proof. unfold star_last. by rewrite last_snoc, removelast_last. Qed.

(** ** The loop lays the items out *)

Lemma unit_kind_is_plain c : is_plain (unit_kind c) = true.
Proof. unfold unit_kind. by destruct (N.eqb c sym_dot). Qed.

Lemma built_init : built [mkState StartState []] (mkLocals [0] [None]) [].
Proof.
  repeat split; try done.
Qed.

Lemma built_unit ch i v (h : heap) its v' h' :
  top_ok h v → built h v its → is_unit ch = true →
  loop_body 0 ch i v h = (Ok v', h') →
  built h' v' (its ++ [(unit_kind ch, false)]).
Proof.
  intros Htop (Hlen & Hclen & Hhead & Hpar & Hchain) Hu Hrun.
  destruct Htop as (c & cs & q & ps & Hsc & Hpreds & _ & Hlt & _).
  rewrite Hsc in Hhead, Hclen. simpl in Hhead, Hclen.
  assert (length h - 1 = c) as Hc by (by inversion Hhead).
  rewrite Hc in Hchain.
  destruct (lookup_lt_is_Some_2 h c Hlt) as [oc Hoc].
  rewrite (loop_body_unit _ _ _ _ _ _ _ _ Hu Hsc Hoc) in Hrun.
  inversion Hrun; subst v' h'. clear Hrun.
  unfold built. rewrite heap_push_length, items_size_app, length_app.
  split; [simpl; lia|]. split; [simpl; lia|].
  split; [simpl; f_equal; lia|].
  split.
  { intros _. rewrite removelast_last. simpl. do 2 f_equal. lia. }
  intros x.
  replace (S (length h) - 1) with (length h) by lia.
  apply (chain_app _ ((StartState, false) :: its) [(unit_kind ch, false)]).
  replace (0 + items_size ((StartState, false) :: its)) with (length h)
    by (simpl; lia).
  split.
  - specialize (Hchain (length h)).
    revert Hchain. apply chain_frame. intros r Hr.
    assert (r < length h) by (simpl in Hr; lia).
    rewrite close_other by lia.
    destruct (decide (r = c)) as [->|Hne].
    + rewrite heap_push_parent by done. symmetry. by apply close_top.
    + rewrite heap_push_other by (done || lia).
      symmetry. by apply close_other.
  - simpl. split; [apply unit_kind_is_plain|]. split; [|done].
    by rewrite (close_top _ _ _ (mkState (unit_kind ch) []))
      by (by apply heap_push_new).
Qed.

Lemma built_quantifier ch i v (h : heap) pre k v' h' :
  top_ok h v → built h v (pre ++ [(k, false)]) → is_quantifier ch = true →
  loop_body 0 ch i v h = (Ok v', h') →
  built h' v' (pre ++ [(k, true)]).
Proof.
  intros Htop (Hlen & Hclen & Hhead & Hpar & Hchain) Hq Hrun.
  pose proof Htop as (c & cs & q & ps & Hsc & _ & _ & Hlt & _).
  rewrite Hsc in Hhead, Hclen. simpl in Hhead, Hclen.
  assert (length h - 1 = c) as Hc by (by inversion Hhead).
  rewrite Hc in Hchain.
  rewrite length_app in Hclen. simpl in Hclen.
  rewrite items_size_app in Hlen. simpl in Hlen.
  destruct cs as [|c2 cs]; [simpl in Hclen; lia|].
  destruct (top_ok_unit h v c c2 cs Htop Hsc)
    as (p & ps' & oi & op & l & Hpreds & _ & Hpc & Hi & Hp & Hnext).
  rewrite Hpreds, removelast_last in Hpar. simpl in Hpar.
  assert (p = items_size pre) as Hpeq.
  { assert (Some (Some p) = Some (Some (items_size pre))) as Heq
      by (apply Hpar; by destruct pre).
    by inversion Heq. }
  assert (c = S (items_size pre)) as Hceq by lia.
  assert (length h = S c) as Hheq by lia.
  rewrite (loop_body_quantifier _ _ _ _ _ _ _ _ _ _ _ _
             Hq Hsc Hpreds Hi Hp) in Hrun by lia.
  inversion Hrun; subst v' h'. clear Hrun.
  (* the two halves of what is known: the items before, and the open unit *)
  assert (Hold : ∀ y,
    chain (close h c y) 0 ((StartState, false) :: pre) c ∧
    is_plain k = true ∧
    close h c y !! c = Some (mkState k [y])).
  { intros y. specialize (Hchain y).
    apply (chain_app _ ((StartState, false) :: pre) [(k, false)]) in Hchain.
    replace (0 + items_size ((StartState, false) :: pre)) with c in Hchain
      by (simpl; lia).
    destruct Hchain as [Hpre Hlast]. split; [done|].
    simpl in Hlast. by destruct Hlast as (? & ? & _). }
  assert (cls oi = k ∧ next_states oi = []) as [Hcls Hnil].
  { destruct (Hold 0) as (_ & _ & Hn).
    rewrite (close_top _ _ _ oi Hi) in Hn. inversion Hn as [[Hk Hl]].
    split; [done|]. destruct (next_states oi) as [|a t]; [done|].
    destruct t; inversion Hl. }
  unfold built.
  rewrite heap_wrap_length, items_size_app, !length_app.
  split; [simpl; lia|]. split; [simpl in *; lia|].
  split; [simpl; f_equal; lia|].
  split.
  { intros _. rewrite removelast_last. simpl. by rewrite Hpeq. }
  intros x.
  replace (S (length h) - 1) with (length h) by lia.
  apply (chain_app _ ((StartState, false) :: pre) [(k, true)]).
  replace (0 + items_size ((StartState, false) :: pre)) with c
    by (simpl; lia).
  split.
  - simpl entry. rewrite <-Hheq.
    destruct op as [kp lp]. simpl in Hnext. subst lp.
    destruct (Hold 0) as (Hpre & _ & _).
    apply (chain_redirect (close h c 0) _ _ 0 c (length h) kp l);
      [done| | | |done].
    + intros r Hr. assert (r < p) by (simpl in Hr; lia).
      rewrite !close_other by lia.
      apply heap_wrap_other; lia.
    + replace (0 + items_size ((StartState, false) :: pre) - 1) with p
        by (simpl; lia).
      by rewrite close_other by lia.
    + replace (0 + items_size ((StartState, false) :: pre) - 1) with p
        by (simpl; lia).
      rewrite close_other by lia.
      rewrite heap_wrap_parent by (done || lia). simpl.
      by rewrite replace_last_snoc.
  - destruct (Hold 0) as (_ & Hplain & _).
    simpl. split; [done|]. split; [|split; [|done]].
    + rewrite close_other by lia.
      rewrite heap_wrap_inner by (done || lia).
      by rewrite Hcls, Hnil, Hheq.
    + exists (repeat_kind ch c). split; [apply repeat_kind_cases|].
      rewrite <-Hheq.
      by rewrite (close_top _ _ _ (mkState (repeat_kind ch c) [c]))
        by (apply heap_wrap_new; (done || lia)).
Qed.

Lemma loop_built rest : ∀ i v (h : heap) its v' h',
  heap_wf h → top_ok h v → built h v its →
  no_consecutive_quantifiers rest = true →
  (starts_with_quantifier rest = true →
   its = [] ∨ ∃ pre k, its = pre ++ [(k, false)]) →
  loop 0 rest i v h = (Ok v', h') →
  built h' v' (foldl item_step its rest).
Proof.
  induction rest as [|c rest IH];
    intros i v h its v' h' Hwf Htop Hbuilt Hnc Hlast Hrun.
  { by inversion Hrun; subst v' h'. }
  rewrite loop_cons in Hrun.
  destruct (loop_body 0 c i v h) as [[v1|e] h1] eqn:Hbody; [|done].
  destruct (loop_body_preserves _ _ _ _ _ _ _ Hwf Htop Hbody)
    as (Hwf1 & Htop1 & _).
  simpl in Hnc. apply andb_true_iff in Hnc as [Hnc1 Hnc2].
  apply negb_true_iff in Hnc1.
  simpl. unfold item_step at 2.
  destruct (char_cases c) as [(Hu & Hnq & _)|[(Hq & _ & _ & _)|(Ha & _)]].
  - rewrite Hnq. apply (IH (S i) v1 h1); try done.
    + by apply (built_unit c i v h).
    + intros _. right. eauto.
  - rewrite Hq.
    destruct Hlast as [->|(pre & k & ->)]; [done| |].
    { destruct Hbuilt as (_ & Hclen & _). simpl in Hclen.
      rewrite loop_body_dangling in Hbody; [done|done|lia]. }
    rewrite star_last_snoc. apply (IH (S i) v1 h1); try done.
    + by apply (built_quantifier c i v h).
    + unfold starts_with_quantifier. intros Hq'.
      rewrite Hq, Hq' in Hnc1. done.
  - by rewrite loop_body_unsupported in Hbody.
Qed.

(** The items the loop produces are the items of the pattern. *)
Lemma foldl_items rest : ∀ its,
  no_consecutive_quantifiers rest = true →
  foldl item_step its rest
  = match rest with
    | q :: rest' =>
        if is_quantifier q then star_last its ++ items_of rest'
        else its ++ items_of rest
    | [] => its
    end.
Proof.
  induction rest as [|c rest IH]; intros its Hnc; [done|].
  simpl in Hnc. apply andb_true_iff in Hnc as [Hnc1 Hnc2].
  apply negb_true_iff in Hnc1.
  cbn [foldl]. rewrite (IH _ Hnc2). unfold item_step.
  destruct (is_quantifier c) eqn:Hq.
  - destruct rest as [|q rest]; [by rewrite app_nil_r|].
    simpl in Hnc1. rewrite Hnc1. done.
  - destruct rest as [|q rest]; [done|]. cbn [items_of].
    destruct (is_quantifier q).
    + by rewrite star_last_snoc, <-app_assoc.
    + by rewrite <-app_assoc.
Qed.

Lemma compile_starts p fsm (h : heap) :
  compile p = (Ok fsm, h) → starts_with_quantifier p = false.
Proof.
  intros Hc.
  destruct (compile_classify p)
    as [(_ & c & rest & h0 & _ & Hrun)
       |[(Hnq & _)|(_ & pre & x & post & h0 & _ & _ & _ & Hrun)]];
    [by rewrite Hrun in Hc|done|by rewrite Hrun in Hc].
Qed.

(** The graph of a pattern without consecutive quantifiers: the start
    state, then the items of the pattern, which lead to the termination
    state. *)
Lemma compile_chain p fsm (h : heap) :
  no_consecutive_quantifiers p = true → compile p = (Ok fsm, h) →
  start fsm = 0 ∧
  h !! final fsm = Some (mkState TerminationState []) ∧
  chain h 0 ((StartState, false) :: items_of p) (final fsm).
Proof.
  intros Hnc Hc. pose proof (compile_starts _ _ _ Hc) as Hnq.
  destruct (compile_ok_inv _ _ _ Hc)
    as (v & h0 & c & cs & oc & Hpre & Hchain & Hoc & -> & ->).
  destruct (compile_prefix_inv _ _ _ Hpre) as (Hwf & Htop & _).
  rewrite compile_prefix_unfold in Hpre.
  pose proof (loop_built p 0 _ _ [] _ _ heap_wf_init top_ok_init built_init
                Hnc (λ _, or_introl eq_refl) Hpre) as Hbuilt.
  rewrite (foldl_items p [] Hnc) in Hbuilt.
  assert (foldl_ok :
    match p with
    | q :: rest' =>
        if is_quantifier q then star_last [] ++ items_of rest'
        else [] ++ items_of p
    | [] => []
    end = items_of p).
  { destruct p as [|q rest]; [done|].
    unfold starts_with_quantifier in Hnq. simpl in Hnq. by rewrite Hnq. }
  rewrite foldl_ok in Hbuilt.
  destruct Hbuilt as (Hlen & _ & Hhead & _ & Hch).
  rewrite Hchain in Hhead. simpl in Hhead.
  assert (length h0 - 1 = c) as Hceq by (by inversion Hhead).
  split; [done|]. split; [by apply heap_push_new|]. cbn [final].
  specialize (Hch (length h0)). rewrite Hceq in Hch.
  revert Hch. apply chain_frame. intros r Hr.
  assert (r < length h0) by (simpl in Hr; lia).
  destruct (decide (r = c)) as [->|Hne].
  - rewrite heap_push_parent by done. symmetry. by apply close_top.
  - rewrite heap_push_other by (done || lia).
    symmetry. by apply close_other.
Qed.

Lemma check_string_ro_decides (h : heap) depth self s b :
  check_string_ro h depth self s = Ok b →
  (b = true ↔ accepting_run h self s).
Proof.
  intros Hrun.
  assert (fst (check_string depth self s h) = Ok b) as Hrun'
    by (by rewrite check_string_run).
  destruct b.
  { split; [intros _|done]. by apply (check_string_sound depth). }
  split; [done|]. intros Hacc. exfalso.
  unfold check_string_ro, next_of in Hrun.
  apply accepting_run_alt in Hacc as (o & nxt & Ho & Hin & Hacc).
  rewrite Ho in Hrun. simpl in Hrun.
  by apply (dfs_ro_complete h depth s nxt 0
              (for_any_ro_false _ _ Hrun nxt Hin)).
Qed.

Lemma compile_accepting_run p fsm (h : heap) s :
  no_consecutive_quantifiers p = true → compile p = (Ok fsm, h) →
  (accepting_run h fsm s ↔ lang (items_of p) s).
Proof.
  intros Hnc Hc.
  destruct (compile_chain _ _ _ Hnc Hc) as (Hstart & Hterm & Hchain).
  simpl in Hchain. destruct Hchain as (_ & H0 & Hchain).
  rewrite accepting_run_alt, Hstart.
  pose proof (chain_lang h s (final fsm) _ (items_of p) 1 0 Hterm eq_refl
                Hchain (Nat.le_0_l _)) as Hl.
  rewrite drop_0 in Hl. rewrite <-Hl.
  split.
  - intros (o & nxt & Ho & Hin & Hacc). rewrite H0 in Ho.
    inversion Ho; subst o. simpl in Hin.
    by apply list_elem_of_singleton in Hin as ->.
  - intros Hacc. eexists _, _. split; [exact H0|]. split; [left|done].
Qed.

(** ** The language of a compiled pattern *)

(** X5: let [compile] accept a pattern in which no quantifier character
    directly follows a quantifier character. Then an accepting run of the
    search on a string exists exactly when the string is in the language of
    the pattern, read as a sequence of units of which those followed by *
    or + take any number of characters, none included, and the others take
    one; and [check_string], with a stack that is deep enough, returns a
    boolean that is [True] exactly for these strings. *)
Theorem compile_language p fsm (h : heap) s :
  no_consecutive_quantifiers p = true → compile p = (Ok fsm, h) →
  (accepting_run h fsm s ↔ lang (items_of p) s) ∧
  ∃ b, returns p s b ∧ (b = true ↔ lang (items_of p) s).
Proof.
  intros Hnc Hc. pose proof (compile_accepting_run p fsm h s Hnc Hc) as Hiff.
  split; [done|].
  destruct (returns_total p fsm h s Hnc Hc) as [b [N Hb]].
  exists b. split; [by exists N|].
  rewrite <-Hiff. specialize (Hb N (le_n N)).
  unfold matches in Hb. rewrite Hc, check_string_run in Hb. simpl in Hb.
  by apply (check_string_ro_decides h N).
Qed.

Lemma compile_language_witness :
  (accepting_run
     [mkState StartState [2]; mkState (AsciiState 97%N) [2];
      mkState (PlusState 1) [1; 3]; mkState DotState [4];
      mkState TerminationState []]
     (mkRegexFSM 0 4 0) (py_str "aab")
   ↔ lang (items_of (py_str "a+.")) (py_str "aab")) ∧
  ∃ b, returns (py_str "a+.") (py_str "aab") b ∧
       (b = true ↔ lang (items_of (py_str "a+.")) (py_str "aab")).
Proof.
  apply (compile_language (py_str "a+.")); vm_compute; reflexivity.
Defined.

(** ** Concatenation of patterns *)

Lemma returns_det p s b b' : returns p s b → returns p s b' → b = b'.
Proof.
  intros [N HN] [N' HN'].
  specialize (HN (N `max` N') ltac:(lia)).
  specialize (HN' (N `max` N') ltac:(lia)). congruence.
Qed.

Lemma compile_ok_iff p :
  (∃ fsm h, compile p = (Ok fsm, h))
  ↔ starts_with_quantifier p = false ∧ Forall (λ c, isascii c = true) p.
Proof.
  split.
  - intros (fsm & h & Hc).
    destruct (compile_classify p)
      as [(_ & c0 & rest & h0 & _ & Hrun)
         |[(Hnq & Hall & _)
          |(_ & pre & x & post & h0 & _ & _ & _ & Hrun)]];
      [by rewrite Hrun in Hc|done|by rewrite Hrun in Hc].
  - intros [Hnq Hall].
    destruct (compile_classify p)
      as [(Hq & _)
         |[(_ & _ & fsm & h & Hrun)
          |(_ & pre & x & post & h & -> & _ & Hx & _)]].
    + congruence.
    + eauto.
    + apply Forall_app in Hall as [_ Hall]. inversion Hall; subst.
      congruence.
Qed.

Lemma returns_lang p s :
  no_consecutive_quantifiers p = true →
  (∃ fsm h, compile p = (Ok fsm, h)) →
  (returns p s true ↔ lang (items_of p) s).
Proof.
  intros Hnc (fsm & h & Hc).
  pose proof (compile_accepting_run p fsm h s Hnc Hc) as Hiff.
  destruct (returns_total p fsm h s Hnc Hc) as [b Hb].
  assert (b = true ↔ lang (items_of p) s) as Hb'.
  { rewrite <-Hiff. destruct Hb as [N Hb]. specialize (Hb N (le_n N)).
    unfold matches in Hb. rewrite Hc, check_string_run in Hb. simpl in Hb.
    by apply (check_string_ro_decides h N). }
  split.
  - intros Ht. apply Hb'. by apply (returns_det p s).
  - intros Hl. apply Hb' in Hl. by subst b.
Qed.

Lemma lang_app its1 its2 : ∀ s,
  lang (its1 ++ its2) s
  ↔ ∃ s1 s2, s = s1 ++ s2 ∧ lang its1 s1 ∧ lang its2 s2.
Proof.
  induction its1 as [|[k [|]] its1 IH]; intros s; simpl.
  - split.
    + intros H. by exists [], s.
    + intros (s1 & s2 & -> & -> & H). done.
  - split.
    + intros (t1 & t2 & -> & Hall & H).
      apply IH in H as (u1 & u2 & -> & H1 & H2).
      exists (t1 ++ u1), u2. split; [by rewrite app_assoc|].
      split; [|done]. by exists t1, u1.
    + intros (s1 & s2 & -> & (t1 & u1 & -> & Hall & H1) & H2).
      exists t1, (u1 ++ s2). split; [by rewrite app_assoc|].
      split; [done|]. apply IH. by exists u1, s2.
  - split.
    + intros (c & s' & -> & Hacc & H).
      apply IH in H as (u1 & u2 & -> & H1 & H2).
      exists (c :: u1), u2. split; [done|]. split; [|done].
      by exists c, u1.
    + intros (s1 & s2 & -> & (c & u1 & -> & Hacc & H1) & H2).
      exists c, (u1 ++ s2). split; [done|]. split; [done|].
      apply IH. by exists u1, s2.
Qed.

Lemma items_of_cons2 u q rest :
  items_of (u :: q :: rest)
  = if is_quantifier q then (unit_kind u, true) :: items_of rest
    else (unit_kind u, false) :: items_of (q :: rest).
Proof. reflexivity. Qed.

Lemma items_of_app p2 :
  starts_with_quantifier p2 = false →
  ∀ n p1, length p1 ≤ n →
    items_of (p1 ++ p2) = items_of p1 ++ items_of p2.
Proof.
  intros Hnq. induction n as [|n IH]; intros p1 Hlen.
  { destruct p1; [done|simpl in Hlen; lia]. }
  destruct p1 as [|u [|q rest]]; [done| |].
  - destruct p2 as [|q p2]; [done|].
    unfold starts_with_quantifier in Hnq. simpl in *. by rewrite Hnq.
  - simpl in Hlen.
    change ((u :: q :: rest) ++ p2) with (u :: q :: (rest ++ p2)).
    rewrite !items_of_cons2.
    destruct (is_quantifier q).
    + by rewrite (IH rest) by lia.
    + change (q :: (rest ++ p2)) with ((q :: rest) ++ p2).
      by rewrite (IH (q :: rest)) by (simpl; lia).
Qed.

Lemma no_consecutive_app p1 p2 :
  no_consecutive_quantifiers (p1 ++ p2) = true →
  no_consecutive_quantifiers p1 = true ∧
  no_consecutive_quantifiers p2 = true.
Proof.
  induction p1 as [|c p1 IH]; simpl; [done|].
  intros H. apply andb_true_iff in H as [H1 H2].
  destruct (IH H2) as [Hp1 Hp2]. split; [|done].
  rewrite Hp1, andb_true_r.
  destruct p1 as [|d p1]; simpl in *; [|done].
  by rewrite andb_false_r.
Qed.

(** X6: let the pattern [p1 ++ p2] compile, without consecutive
    quantifier characters, and let [p2] not begin with a quantifier
    character. Then [p1] and [p2] compile, and [check_string] accepts a
    string against [p1 ++ p2] exactly when the string splits into a part
    accepted against [p1] followed by a part accepted against [p2]. *)
Theorem concat_language p1 p2 s :
  no_consecutive_quantifiers (p1 ++ p2) = true →
  starts_with_quantifier p2 = false →
  (∃ fsm h, compile (p1 ++ p2) = (Ok fsm, h)) →
  (∃ fsm h, compile p1 = (Ok fsm, h)) ∧
  (∃ fsm h, compile p2 = (Ok fsm, h)) ∧
  (returns (p1 ++ p2) s true
   ↔ ∃ s1 s2, s = s1 ++ s2 ∧ returns p1 s1 true ∧ returns p2 s2 true).
Proof.
  intros Hnc Hnq2 Hc.
  destruct (no_consecutive_app _ _ Hnc) as [Hnc1 Hnc2].
  pose proof Hc as Hc'. apply compile_ok_iff in Hc' as [Hnq Hall].
  apply Forall_app in Hall as [Hall1 Hall2].
  assert (∃ fsm h, compile p1 = (Ok fsm, h)) as Hc1.
  { apply compile_ok_iff. split; [|done]. by destruct p1. }
  assert (∃ fsm h, compile p2 = (Ok fsm, h)) as Hc2
    by (by apply compile_ok_iff).
  split; [done|]. split; [done|].
  rewrite (returns_lang _ s Hnc Hc).
  rewrite (items_of_app p2 Hnq2 (length p1) p1 (le_n _)), lang_app.
  split; intros (s1 & s2 & -> & H1 & H2); exists s1, s2;
    (split; [done|]); split;
    try (by apply (returns_lang _ _ Hnc1 Hc1));
    by apply (returns_lang _ _ Hnc2 Hc2).
Qed.

Lemma concat_language_witness :
  (∃ fsm h, compile (py_str "a*") = (Ok fsm, h)) ∧
  (∃ fsm h, compile (py_str "b.") = (Ok fsm, h)) ∧
  (returns (py_str "a*" ++ py_str "b.") (py_str "aabc") true
   ↔ ∃ s1 s2, py_str "aabc" = s1 ++ s2 ∧ returns (py_str "a*") s1 true ∧
              returns (py_str "b.") s2 true).
Proof.
  apply (concat_language (py_str "a*") (py_str "b."));
    [reflexivity|reflexivity|].
  eexists _, _. vm_compute. reflexivity.
Defined.

(** ** One object per pattern character *)

Lemma heap_push_kind k parent op (h : heap) r :
  h !! parent = Some op → r < length h →
  cls <$> heap_push k parent op h !! r = cls <$> h !! r.
Proof.
  intros Hp Hlt. destruct (decide (r = parent)) as [->|Hne].
  - by rewrite heap_push_parent, Hp.
  - by rewrite heap_push_other.
Qed.

Lemma heap_wrap_kind k inner p oi op (h : heap) r :
  h !! inner = Some oi → h !! p = Some op → p ≠ inner → r < length h →
  cls <$> heap_wrap k inner p oi op h !! r = cls <$> h !! r.
Proof.
  intros Hi Hp Hne Hlt. destruct (decide (r = p)) as [->|Hnp].
  { by rewrite heap_wrap_parent, Hp. }
  destruct (decide (r = inner)) as [->|Hni].
  { by rewrite heap_wrap_inner, Hi. }
  by rewrite heap_wrap_other.
Qed.

Lemma loop_body_layout ch i v (h : heap) v' h' :
  top_ok h v → head (states_chain v) = Some (length h - 1) →
  loop_body 0 ch i v h = (Ok v', h') →
  length h' = S (length h) ∧
  head (states_chain v') = Some (length h) ∧
  (∀ r, r < length h → cls <$> h' !! r = cls <$> h !! r) ∧
  cls <$> h' !! length h = Some (char_kind ch (length h - 1)).
Proof.
  intros Htop Hhead Hrun.
  pose proof Htop as (c & cs & q & ps & Hsc & _ & _ & Hlt & _).
  rewrite Hsc in Hhead. simpl in Hhead.
  assert (c = length h - 1) as Hc by (by inversion Hhead).
  unfold char_kind.
  destruct (char_cases ch) as [(Hu & Hnq & _)|[(Hq & _ & _ & _)|(Ha & _)]].
  - destruct (lookup_lt_is_Some_2 h c Hlt) as [oc Hoc].
    rewrite (loop_body_unit _ _ _ _ _ _ _ _ Hu Hsc Hoc) in Hrun.
    inversion Hrun; subst v' h'. rewrite Hnq.
    split; [apply heap_push_length|]. split; [done|].
    split; [intros r Hr; by apply heap_push_kind|].
    by rewrite heap_push_new.
  - destruct cs as [|c2 cs].
    { rewrite loop_body_dangling in Hrun; [done|done|].
      rewrite Hsc. simpl. lia. }
    destruct (top_ok_unit h v c c2 cs Htop Hsc)
      as (p & ps' & oi & op & l & Hpreds & _ & Hpc & Hi & Hp & _).
    rewrite (loop_body_quantifier _ _ _ _ _ _ _ _ _ _ _ _
               Hq Hsc Hpreds Hi Hp) in Hrun by lia.
    inversion Hrun; subst v' h'. rewrite Hq.
    split; [apply heap_wrap_length|]. split; [done|].
    split; [intros r Hr; apply heap_wrap_kind; (done || lia)|].
    rewrite heap_wrap_new by (done || lia). by rewrite Hc.
  - by rewrite loop_body_unsupported in Hrun.
Qed.

Lemma loop_layout rest : ∀ i v (h : heap) v' h',
  heap_wf h → top_ok h v → head (states_chain v) = Some (length h - 1) →
  loop 0 rest i v h = (Ok v', h') →
  length h' = length h + length rest ∧
  head (states_chain v') = Some (length h' - 1) ∧
  (∀ r, r < length h → cls <$> h' !! r = cls <$> h !! r) ∧
  (∀ j c, rest !! j = Some c →
          cls <$> h' !! (length h + j)
          = Some (char_kind c (length h + j - 1))).
Proof.
  induction rest as [|ch rest IH]; intros i v h v' h' Hwf Htop Hhead Hrun.
  { inversion Hrun; subst v' h'. simpl. rewrite Nat.add_0_r.
    repeat split; try done. }
  rewrite loop_cons in Hrun.
  destruct (loop_body 0 ch i v h) as [[v1|e] h1] eqn:Hbody; [|done].
  destruct (loop_body_preserves _ _ _ _ _ _ _ Hwf Htop Hbody)
    as (Hwf1 & Htop1 & _).
  destruct (loop_body_layout _ _ _ _ _ _ Htop Hhead Hbody)
    as (Hlen1 & Hhead1 & Hkeep1 & Hnew1).
  assert (head (states_chain v1) = Some (length h1 - 1)) as Hhead1'.
  { rewrite Hhead1, Hlen1. f_equal. lia. }
  destruct (IH _ _ _ _ _ Hwf1 Htop1 Hhead1' Hrun)
    as (Hlen & Hhead' & Hkeep & Hnew).
  split; [simpl; lia|]. split; [done|]. split.
  - intros r Hr. rewrite Hkeep by lia. by apply Hkeep1.
  - intros [|j] c Hc; simpl in Hc.
    + inversion Hc; subst c. rewrite Nat.add_0_r.
      rewrite Hkeep by lia. done.
    + specialize (Hnew j c Hc). rewrite Hlen1 in Hnew.
      replace (length h + S j) with (S (length h) + j) by lia.
      exact Hnew.
Qed.

(** X7: a successful [compile] creates one object per pattern character
    between the start state, which is object 0, and the termination state,
    which is the last object, [final], and has no successor. The object of
    the character at position [i] is object [i + 1]: a wildcard or literal
    state for a unit character, and for a quantifier a repeat state around
    object [i], the object created just before it. So the graph holds one
    start state and one termination state. *)
Theorem compile_layout p fsm (h : heap) :
  compile p = (Ok fsm, h) →
  length h = length p + 2 ∧
  fsm = mkRegexFSM 0 (length p + 1) 0 ∧
  cls <$> h !! 0 = Some StartState ∧
  h !! (length p + 1) = Some (mkState TerminationState []) ∧
  (∀ i c, p !! i = Some c → cls <$> h !! S i = Some (char_kind c i)) ∧
  (∀ r o, h !! r = Some o → cls o = StartState → r = 0) ∧
  (∀ r o, h !! r = Some o → cls o = TerminationState → r = length p + 1).
Proof.
  intros Hc.
  destruct (compile_ok_inv _ _ _ Hc)
    as (v & h0 & c & cs & oc & Hpre & Hchain & Hoc & -> & ->).
  rewrite compile_prefix_unfold in Hpre.
  destruct (loop_layout p 0 _ _ _ _ heap_wf_init top_ok_init eq_refl Hpre)
    as (Hlen & Hhead & Hkeep & Hnew).
  simpl in Hlen, Hkeep, Hnew.
  pose proof (lookup_lt_Some _ _ _ Hoc) as Hclt.
  assert (Hkinds :
    cls <$> heap_push TerminationState c oc h0 !! 0 = Some StartState ∧
    ∀ i c0, p !! i = Some c0 →
      cls <$> heap_push TerminationState c oc h0 !! S i
      = Some (char_kind c0 i)).
  { split.
    - rewrite heap_push_kind by (done || lia). by rewrite Hkeep by lia.
    - intros i c0 Hi. pose proof (lookup_lt_Some _ _ _ Hi) as Hilt.
      rewrite heap_push_kind by (done || lia).
      rewrite (Hnew i c0 Hi). do 2 f_equal. lia. }
  destruct Hkinds as [Hk0 Hki].
  assert (Hterm : heap_push TerminationState c oc h0 !! (length p + 1)
                  = Some (mkState TerminationState [])).
  { replace (length p + 1) with (length h0) by lia. by apply heap_push_new. }
  assert (Hcases : ∀ r o,
    heap_push TerminationState c oc h0 !! r = Some o →
    r = 0 ∧ cls o = StartState
    ∨ r = length p + 1 ∧ cls o = TerminationState
    ∨ ∃ i c0, r = S i ∧ p !! i = Some c0 ∧ cls o = char_kind c0 i).
  { intros r o Hr. pose proof (lookup_lt_Some _ _ _ Hr) as Hrlt.
    rewrite heap_push_length in Hrlt.
    destruct r as [|i].
    { left. split; [done|]. rewrite Hr in Hk0. by inversion Hk0. }
    destruct (decide (S i = length p + 1)) as [Heq|Hne].
    { right; left. split; [done|]. rewrite Heq, Hterm in Hr.
      by inversion Hr. }
    right; right. assert (i < length p) as Hi by lia.
    destruct (lookup_lt_is_Some_2 p i Hi) as [c0 Hc0].
    exists i, c0. split; [done|]. split; [done|].
    specialize (Hki i c0 Hc0). rewrite Hr in Hki. by inversion Hki. }
  assert (Hck : ∀ c0 i, char_kind c0 i ≠ StartState ∧
                        char_kind c0 i ≠ TerminationState).
  { intros c0 i. unfold char_kind, repeat_kind, unit_kind.
    destruct (is_quantifier c0), (N.eqb c0 sym_star), (N.eqb c0 sym_dot);
      done. }
  rewrite heap_push_length.
  split; [lia|]. split; [f_equal; lia|]. split; [done|]. split; [done|].
  split; [done|]. split.
  - intros r o Hr Hcls.
    destruct (Hcases r o Hr) as [[-> _]|[[_ H]|(i & c0 & _ & _ & H)]];
      [done|congruence|].
    rewrite H in Hcls. by destruct (Hck c0 i).
  - intros r o Hr Hcls.
    destruct (Hcases r o Hr) as [[_ H]|[[-> _]|(i & c0 & _ & _ & H)]];
      [congruence|done|].
    rewrite H in Hcls. by destruct (Hck c0 i).
Qed.

Lemma compile_layout_witness :
  length [mkState StartState [2]; mkState (AsciiState 97%N) [2];
          mkState (StarState 1) [1; 3]; mkState TerminationState []]
  = length (py_str "a*") + 2 ∧
  mkRegexFSM 0 3 0 = mkRegexFSM 0 (length (py_str "a*") + 1) 0 ∧
  cls <$> [mkState StartState [2]; mkState (AsciiState 97%N) [2];
           mkState (StarState 1) [1; 3]; mkState TerminationState []] !! 0
  = Some StartState ∧
  [mkState StartState [2]; mkState (AsciiState 97%N) [2];
   mkState (StarState 1) [1; 3]; mkState TerminationState []]
    !! (length (py_str "a*") + 1)
  = Some (mkState TerminationState []) ∧
  (∀ i c, py_str "a*" !! i = Some c →
     cls <$> [mkState StartState [2]; mkState (AsciiState 97%N) [2];
              mkState (StarState 1) [1; 3]; mkState TerminationState []]
               !! S i
     = Some (char_kind c i)) ∧
  (∀ r o,
     [mkState StartState [2]; mkState (AsciiState 97%N) [2];
      mkState (StarState 1) [1; 3]; mkState TerminationState []] !! r
     = Some o → cls o = StartState → r = 0) ∧
  (∀ r o,
     [mkState StartState [2]; mkState (AsciiState 97%N) [2];
      mkState (StarState 1) [1; 3]; mkState TerminationState []] !! r
     = Some o → cls o = TerminationState → r = length (py_str "a*") + 1).
Proof.
  apply (compile_layout (py_str "a*")). vm_compute. reflexivity.
Defined.

(** ** A quantifier on a quantifier *)

Lemma dfs_ro_unfold (h : heap) d s state idx o :
  h !! state = Some o →
  dfs_ro h (S d) s state idx
  = if is_Termination (cls o) then Ok (idx =? length s) else
    let+ hit :=
      match s !! idx with
      | Some ch =>
          let+ ok := check_self_ro h d state ch in
          if ok then
            for_any_ro (λ nxt, dfs_ro h d s nxt (idx + 1)) (next_states o)
          else Ok false
      | None => Ok false
      end in
    if hit then Ok true else
    if is_Repeat (cls o) then
      for_any_ro (λ nxt, dfs_ro h d s nxt idx) (next_states o)
    else Ok false.
Proof.
  intros Ho. simpl. unfold cls_of, next_of. rewrite Ho. reflexivity.
Qed.

Lemma check_self_ro_raise (h : heap) c e :
  heap_wf h →
  ∀ d state, state < length h →
    check_self_ro h d state c = Raise e → e = RecursionError.
Proof.
  intros [_ Hinner _]. induction d as [|d IH]; intros state Hlt.
  { simpl. by intros [= <-]. }
  simpl. unfold cls_of.
  destruct (lookup_lt_is_Some_2 h state Hlt) as [o Ho]. rewrite Ho. simpl.
  destruct (cls o) as [| | |sym|i|i] eqn:Hcls; try done.
  - apply IH. assert (i < state) by (apply (Hinner _ o); auto). lia.
  - apply IH. assert (i < state) by (apply (Hinner _ o); auto). lia.
Qed.

(** The search in the graph of a unit under two quantifiers: from either
    repeat state it overflows the stack, whatever the stack. *)
Lemma two_repeats_overflow (h : heap) s ku K1 K2 :
  heap_wf h →
  h !! 1 = Some (mkState ku [2]) → is_plain ku = true →
  h !! 2 = Some (mkState K1 [1; 3]) → is_Repeat K1 = true →
  h !! 3 = Some (mkState K2 [2; 4]) → is_Repeat K2 = true →
  ∀ n i,
    dfs_ro h n s 2 i = Raise RecursionError ∧
    dfs_ro h n s 3 i = Raise RecursionError ∧
    (dfs_ro h n s 1 i = Ok false ∨ dfs_ro h n s 1 i = Raise RecursionError).
Proof.
  intros Hwf H1 Hplain H2 HK1 H3 HK2.
  assert (is_Termination ku = false ∧ is_Repeat ku = false) as [Hkut Hkur]
    by (by destruct ku).
  assert (is_Termination K1 = false) as HK1t by (by destruct K1).
  assert (is_Termination K2 = false) as HK2t by (by destruct K2).
  assert (Hself : ∀ d state ch, state < length h →
    (∃ b, check_self_ro h d state ch = Ok b)
    ∨ check_self_ro h d state ch = Raise RecursionError).
  { intros d state ch Hlt.
    destruct (check_self_ro h d state ch) as [b|e] eqn:Hd; [eauto|].
    right. f_equal. by apply (check_self_ro_raise h ch e Hwf d state). }
  pose proof (lookup_lt_Some _ _ _ H1) as Hlt1.
  pose proof (lookup_lt_Some _ _ _ H2) as Hlt2.
  pose proof (lookup_lt_Some _ _ _ H3) as Hlt3.
  induction n as [|n IH]; intros i; [simpl; auto|].
  rewrite (dfs_ro_unfold h n s 1 i _ H1), (dfs_ro_unfold h n s 2 i _ H2),
    (dfs_ro_unfold h n s 3 i _ H3).
  simpl. rewrite Hkut, Hkur, HK1t, HK1, HK2t, HK2.
  assert (Hat2 : ∀ j, dfs_ro h n s 2 j = Raise RecursionError)
    by (intros j; apply IH).
  assert (Hat3 : ∀ j, dfs_ro h n s 3 j = Raise RecursionError)
    by (intros j; apply IH).
  assert (Hvia1 : ∀ j,
    (let+ b := dfs_ro h n s 1 j in
     if b then Ok true
     else let+ b0 := dfs_ro h n s 3 j in
          if b0 then Ok true else Ok false) = Raise RecursionError).
  { intros j. destruct (IH j) as (_ & _ & [-> | ->]); simpl; [|done].
    by rewrite Hat3. }
  split; [|split].
  - destruct (s !! i) as [ch|]; simpl; [|apply Hvia1].
    destruct (Hself n 2 ch Hlt2) as [[[|] ->]| ->]; simpl; [| |done].
    + by rewrite Hvia1.
    + apply Hvia1.
  - destruct (s !! i) as [ch|]; simpl; [|by rewrite Hat2].
    destruct (Hself n 3 ch Hlt3) as [[[|] ->]| ->]; simpl; [| |done].
    + by rewrite Hat2.
    + by rewrite Hat2.
  - destruct (s !! i) as [ch|]; simpl; [|auto].
    destruct (Hself n 1 ch Hlt1) as [[[|] ->]| ->]; simpl; [| |auto].
    + rewrite Hat2. simpl. auto.
    + auto.
Qed.

Lemma compile_unit_two_quantifiers u q1 q2 :
  is_unit u = true → is_quantifier q1 = true → is_quantifier q2 = true →
  compile [u; q1; q2]
  = (Ok (mkRegexFSM 0 4 0),
     [mkState StartState [3]; mkState (unit_kind u) [2];
      mkState (repeat_kind q1 1) [1; 3]; mkState (repeat_kind q2 2) [2; 4];
      mkState TerminationState []]).
Proof.
  intros Hu Hq1 Hq2.
  assert (compile_prefix [u; q1; q2]
          = (Ok (mkLocals [3; 0] [Some 0; None]),
             [mkState StartState [3]; mkState (unit_kind u) [2];
              mkState (repeat_kind q1 1) [1; 3];
              mkState (repeat_kind q2 2) [2]])) as Hpre.
  { rewrite compile_prefix_unfold, loop_cons.
    rewrite (loop_body_unit _ _ _ _ 0 [] _ (mkState StartState []) Hu)
      by done.
    rewrite loop_cons.
    rewrite (loop_body_quantifier _ _ _ _ 1 0 [] 0 [None] _
               (mkState (unit_kind u) []) (mkState StartState [1]) Hq1)
      by done.
    rewrite loop_cons.
    rewrite (loop_body_quantifier _ _ _ _ 2 0 [] 0 [None] _
               (mkState (repeat_kind q1 1) [1]) (mkState StartState [2]) Hq2)
      by done.
    reflexivity. }
  by rewrite (compile_finish _ _ _ 3 [0] (mkState (repeat_kind q2 2) [2]) Hpre).
Qed.

(** X8: a unit followed by two quantifier characters compiles, and
    [check_string] on its graph returns for no string and no depth of the
    stack: the two repeat states reach each other without consuming a
    character, and the search ends in [RecursionError]. *)
Theorem double_quantifier_overflow u q1 q2 s depth :
  is_unit u = true → is_quantifier q1 = true → is_quantifier q2 = true →
  (∃ fsm h, compile [u; q1; q2] = (Ok fsm, h)) ∧
  matches depth [u; q1; q2] s = Raise RecursionError.
Proof.
  intros Hu Hq1 Hq2.
  pose proof (compile_unit_two_quantifiers u q1 q2 Hu Hq1 Hq2) as Hc.
  split; [eauto|].
  unfold matches. rewrite Hc, check_string_run. simpl.
  unfold check_string_ro, next_of. simpl.
  assert (dfs_ro
            [mkState StartState [3]; mkState (unit_kind u) [2];
             mkState (repeat_kind q1 1) [1; 3];
             mkState (repeat_kind q2 2) [2; 4];
             mkState TerminationState []] depth s 3 0
          = Raise RecursionError) as ->; [|done].
  apply (two_repeats_overflow _ s (unit_kind u) (repeat_kind q1 1)
           (repeat_kind q2 2)); try done.
  - by apply (compile_heap_wf _ _ _ Hc).
  - apply unit_kind_is_plain.
  - by destruct (repeat_kind_cases q1 1) as [-> | ->].
  - by destruct (repeat_kind_cases q2 2) as [-> | ->].
Qed.

Lemma double_quantifier_overflow_witness :
  (∃ fsm h, compile [97%N; sym_plus; sym_star] = (Ok fsm, h)) ∧
  matches 1000 [97%N; sym_plus; sym_star] (py_str "aa")
  = Raise RecursionError.
Proof.
  apply (double_quantifier_overflow 97%N sym_plus sym_star); reflexivity.
Defined.

(** ** Patterns of one unit *)

Lemma accepts_unit_kind u c :
  accepts_kind (unit_kind u) c = true ↔ u = sym_dot ∨ c = u.
Proof.
  unfold unit_kind. destruct (N.eqb_spec u sym_dot) as [->|Hne]; simpl.
  - split; auto.
  - rewrite N.eqb_eq. split; [auto|]. by intros [?|?].
Qed.

(** X9: the pattern of one unit character accepts exactly the strings of
    one character that the unit accepts (any character for the wildcard,
    the same character for a literal). The pattern of a unit followed by a
    quantifier, * or +, accepts exactly the strings all of whose characters
    the unit accepts, the empty string among them. In both cases
    [check_string] returns, given a stack that is deep enough. *)
Theorem unit_patterns :
  (∀ u s, is_unit u = true →
     ∃ b, returns [u] s b ∧
          (b = true ↔ ∃ c, s = [c] ∧ (u = sym_dot ∨ c = u))) ∧
  (∀ u q s, is_unit u = true → is_quantifier q = true →
     ∃ b, returns [u; q] s b ∧
          (b = true ↔ Forall (λ c, u = sym_dot ∨ c = u) s)).
Proof.
  split.
  - intros u s Hu.
    destruct (char_cases u) as [(_ & Hnq & Ha)|[(_ & H & _)|(_ & H & _)]];
      try congruence.
    assert (∃ fsm h, compile [u] = (Ok fsm, h)) as (fsm & h & Hc).
    { apply compile_ok_iff. split; [done|]. by repeat constructor. }
    assert (no_consecutive_quantifiers [u] = true) as Hnc.
    { simpl. by rewrite andb_false_r. }
    destruct (returns_total [u] fsm h s Hnc Hc) as [b Hb].
    exists b. split; [done|].
    assert (b = true ↔ returns [u] s true) as ->.
    { split; [by intros ->|]. intros Ht. by apply (returns_det [u] s). }
    rewrite (returns_lang [u] s Hnc) by eauto. simpl. split.
    + intros (c & s' & -> & Hacc & ->). exists c.
      split; [done|]. by apply accepts_unit_kind.
    + intros (c & -> & Hacc). exists c, [].
      split; [done|]. split; [|done]. by apply accepts_unit_kind.
  - intros u q s Hu Hq.
    destruct (char_cases u) as [(_ & Hnq & Ha)|[(_ & H & _)|(_ & H & _)]];
      try congruence.
    destruct (char_cases q) as [(_ & H & _)|[(_ & _ & Haq & _)|(_ & _ & H & _)]];
      try congruence.
    assert (∃ fsm h, compile [u; q] = (Ok fsm, h)) as (fsm & h & Hc).
    { apply compile_ok_iff. split; [done|]. by repeat constructor. }
    assert (no_consecutive_quantifiers [u; q] = true) as Hnc.
    { simpl. by rewrite Hnq, andb_false_r. }
    destruct (returns_total [u; q] fsm h s Hnc Hc) as [b Hb].
    exists b. split; [done|].
    assert (b = true ↔ returns [u; q] s true) as ->.
    { split; [by intros ->|]. intros Ht. by apply (returns_det [u; q] s). }
    rewrite (returns_lang [u; q] s Hnc) by eauto.
    rewrite items_of_cons2, Hq. simpl. split.
    + intros (s1 & s2 & -> & Hall & ->). rewrite app_nil_r.
      eapply Forall_impl; [exact Hall|]. intros c. apply accepts_unit_kind.
    + intros Hall. exists s, []. rewrite app_nil_r.
      split; [done|]. split; [|done].
      eapply Forall_impl; [exact Hall|]. intros c. apply accepts_unit_kind.
Qed.

Lemma unit_patterns_witness :
  ∃ b, returns [sym_dot; sym_plus] [] b ∧
       (b = true ↔ Forall (λ c, sym_dot = sym_dot ∨ c = sym_dot) []).
Proof.
  apply (proj2 unit_patterns sym_dot sym_plus []); reflexivity.
Defined.

(** ** [check_self] on a compiled graph *)

(** X10: in the graph of every pattern that [compile] accepts, consecutive
    quantifiers included, every repeat state wraps a state created before
    it; so [check_self] on a state of the graph follows [inner] references
    at most as many times as the index of the state, and returns a boolean
    as soon as the stack has more frames than that. *)
Theorem check_self_returns p fsm (h : heap) state c depth :
  compile p = (Ok fsm, h) → state < length h → state < depth →
  (∀ o i, h !! state = Some o →
          cls o = StarState i ∨ cls o = PlusState i → i < state) ∧
  ∃ b, fst (check_self depth state c h) = Ok b.
Proof.
  intros Hc Hlt Hd. pose proof (compile_heap_wf _ _ _ Hc) as Hwf.
  split.
  - intros o i Ho Hcls. by apply (wf_inner h Hwf state o i).
  - rewrite check_self_run. simpl. by apply check_self_ro_total.
Qed.

Lemma check_self_returns_witness :
  (∀ o i,
     [mkState StartState [3]; mkState (AsciiState 97%N) [2];
      mkState (StarState 1) [1; 3]; mkState (StarState 2) [2; 4];
      mkState TerminationState []] !! 3 = Some o →
     cls o = StarState i ∨ cls o = PlusState i → i < 3) ∧
  ∃ b, fst (check_self 4 3 97%N
              [mkState StartState [3]; mkState (AsciiState 97%N) [2];
               mkState (StarState 1) [1; 3]; mkState (StarState 2) [2; 4];
               mkState TerminationState []]) = Ok b.
Proof.
  apply (check_self_returns (py_str "a**") (mkRegexFSM 0 4 0));
    [vm_compute; reflexivity|simpl; lia|lia].
Defined.

(** ** The errors of the search *)

Lemma for_any_ro_raise (f : ref → result bool) l e :
  (∀ x, x ∈ l → f x = Raise e → e = RecursionError) →
  for_any_ro f l = Raise e → e = RecursionError.
Proof.
  induction l as [|x l IH]; intros Hf; simpl; [done|].
  destruct (f x) as [[|]|e'] eqn:Hfx; simpl.
  - done.
  - apply IH. intros y Hy. apply Hf. by right.
  - intros [= <-]. apply (Hf x); [left|done].
Qed.

Lemma dfs_ro_raise (h : heap) s e :
  heap_wf h →
  ∀ d state idx, state < length h →
    dfs_ro h d s state idx = Raise e → e = RecursionError.
Proof.
  intros Hwf. pose proof Hwf as [Hclosed _ _].
  induction d as [|d IH]; intros state idx Hlt.
  { simpl. by intros [= <-]. }
  destruct (lookup_lt_is_Some_2 h state Hlt) as [o Ho].
  rewrite (dfs_ro_unfold h d s state idx o Ho).
  destruct (is_Termination (cls o)); [done|].
  assert (Hany : ∀ i,
    for_any_ro (λ nxt, dfs_ro h d s nxt i) (next_states o) = Raise e →
    e = RecursionError).
  { intros i. apply for_any_ro_raise. intros x Hx.
    apply IH. by apply (Hclosed _ _ _ Ho). }
  assert (Hrest :
    (if is_Repeat (cls o)
     then for_any_ro (λ nxt, dfs_ro h d s nxt idx) (next_states o)
     else Ok false) = Raise e → e = RecursionError).
  { destruct (is_Repeat (cls o)); [apply Hany|done]. }
  destruct (s !! idx) as [ch|]; simpl; [|exact Hrest].
  destruct (check_self_ro h d state ch) as [[|]|e'] eqn:Hok; simpl.
  - destruct (for_any_ro (λ nxt, dfs_ro h d s nxt (idx + 1))
                (next_states o)) as [[|]|e'] eqn:Hhit; simpl;
      [done|exact Hrest|].
    intros [= <-]. by apply (Hany (idx + 1)).
  - exact Hrest.
  - intros [= <-]. by apply (check_self_ro_raise h ch e' Hwf d state).
Qed.

Lemma check_string_ro_raise (h : heap) depth self s e :
  heap_wf h → start self < length h →
  check_string_ro h depth self s = Raise e → e = RecursionError.
Proof.
  intros Hwf Hlt. pose proof Hwf as [Hclosed _ _].
  destruct (lookup_lt_is_Some_2 h (start self) Hlt) as [o Ho].
  unfold check_string_ro, next_of. rewrite Ho. simpl.
  apply for_any_ro_raise. intros x Hx.
  apply (dfs_ro_raise h s e Hwf). by apply (Hclosed _ _ _ Ho).
Qed.

Lemma compile_start p fsm (h : heap) :
  compile p = (Ok fsm, h) → start fsm < length h.
Proof.
  intros Hc.
  destruct (compile_ok_inv _ _ _ Hc)
    as (v & h0 & c & cs & oc & _ & _ & _ & -> & ->).
  rewrite heap_push_length. simpl. lia.
Qed.

(** C1, amended: on the graph of every pattern that [compile] accepts,
    [check_string] returns a boolean or raises [RecursionError], and nothing
    else. When no quantifier character directly follows a quantifier
    character in the pattern, it returns a boolean, and the same one, as
    soon as the stack has room for [(len(s) + 2) * (number of states + 1)]
    nested calls of [dfs] and [check_self]. Patterns with consecutive
    quantifiers are not covered by this: on the graph of a** the call
    returns for no string, whatever the stack, while on the graph of ba**
    it still rejects the string c. *)
Theorem check_string_terminates :
  (∀ p fsm (h : heap) s depth e,
     compile p = (Ok fsm, h) →
     fst (check_string depth fsm s h) = Raise e → e = RecursionError) ∧
  (∀ p fsm (h : heap) s,
     no_consecutive_quantifiers p = true →
     compile p = (Ok fsm, h) →
     ∃ b, ∀ depth,
       (length s + 2) * S (length h) ≤ depth →
       fst (check_string depth fsm s h) = Ok b) ∧
  (∀ s depth, matches depth (py_str "a**") s = Raise RecursionError) ∧
  returns (py_str "ba**") (py_str "c") false.
Proof.
  split; [|split; [|split]].
  - intros p fsm h s depth e Hc. rewrite check_string_run. simpl.
    apply check_string_ro_raise;
      [by apply (compile_heap_wf _ _ _ Hc)|by apply (compile_start _ _ _ Hc)].
  - intros p fsm h s Hnc Hc.
    destruct (compile_skips_ascend _ _ _ Hnc Hc) as [Hasc Hstart].
    destruct (check_string_ro_total h fsm s (compile_heap_wf _ _ _ Hc)
                Hasc Hstart) as [b Hb].
    exists b. intros depth Hd. rewrite check_string_run. simpl. by apply Hb.
  - intros s depth.
    pose proof (compile_unit_two_quantifiers 97%N sym_star sym_star
                  eq_refl eq_refl eq_refl) as Hc.
    change [97%N; sym_star; sym_star] with (py_str "a**") in Hc.
    unfold matches. rewrite Hc, check_string_run. simpl.
    unfold check_string_ro, next_of. simpl.
    assert (dfs_ro
              [mkState StartState [3]; mkState (unit_kind 97%N) [2];
               mkState (repeat_kind sym_star 1) [1; 3];
               mkState (repeat_kind sym_star 2) [2; 4];
               mkState TerminationState []] depth s 3 0
            = Raise RecursionError) as ->; [|done].
    apply (two_repeats_overflow _ s (unit_kind 97%N)
             (repeat_kind sym_star 1) (repeat_kind sym_star 2)); try done.
    by apply (compile_heap_wf _ _ _ Hc).
  - apply (returns_at 5). vm_compute. reflexivity.
Qed.

Lemma check_string_terminates_witness :
  ∃ b, ∀ depth,
    (length (py_str "aab") + 2)
    * S (length [mkState StartState [2]; mkState (AsciiState 97%N) [2];
                 mkState (StarState 1) [1; 3]; mkState (AsciiState 98%N) [4];
                 mkState TerminationState []]) ≤ depth →
    fst (check_string depth (mkRegexFSM 0 4 0) (py_str "aab")
           [mkState StartState [2]; mkState (AsciiState 97%N) [2];
            mkState (StarState 1) [1; 3]; mkState (AsciiState 98%N) [4];
            mkState TerminationState []]) = Ok b.
Proof.
  apply (proj1 (proj2 check_string_terminates) (py_str "a*b"));
    vm_compute; reflexivity.
Defined.

(** ** The zero-occurrence skip of both repeat kinds *)

Lemma dfs_ro_skip (h : heap) d s r o i nxt b :
  h !! r = Some o → is_Repeat (cls o) = true → nxt ∈ next_states o →
  dfs_ro h d s nxt i = Ok true →
  dfs_ro h (S d) s r i = Ok b → b = true.
Proof.
  intros Ho Hrep Hin Hnxt. rewrite (dfs_ro_unfold h d s r i o Ho), Hrep.
  assert (is_Termination (cls o) = false) as -> by (by destruct (cls o)).
  destruct (match s !! i with Some _ => _ | None => _ end) as [[|]|e];
    simpl; [by intros [= <-]| |done].
  destruct b; [done|]. intros Hany.
  pose proof (for_any_ro_false _ _ Hany nxt Hin) as Hf. simpl in Hf.
  congruence.
Qed.

Lemma dfs_ro_plain_consumes (h : heap) d s r o i :
  h !! r = Some o → is_Repeat (cls o) = false →
  is_Termination (cls o) = false →
  dfs_ro h (S d) s r i = Ok true →
  ∃ ch nxt, s !! i = Some ch ∧ check_self_ro h d r ch = Ok true ∧
            nxt ∈ next_states o ∧ dfs_ro h d s nxt (i + 1) = Ok true.
Proof.
  intros Ho Hrep Hterm. rewrite (dfs_ro_unfold h d s r i o Ho), Hrep, Hterm.
  destruct (s !! i) as [ch|]; simpl; [|done].
  destruct (check_self_ro h d r ch) as [[|]|e] eqn:Hok; simpl; try done.
  destruct (for_any_ro (λ nxt, dfs_ro h d s nxt (i + 1)) (next_states o))
    as [[|]|e] eqn:Hhit; simpl; try done.
  intros _. apply for_any_ro_true in Hhit as (nxt & Hin & Hnxt).
  exists ch, nxt. auto.
Qed.

Lemma repeat_unit_returns u q s :
  is_unit u = true → is_quantifier q = true →
  ∃ b, returns [u; q] s b ∧
       (b = true ↔ Forall (λ c, u = sym_dot ∨ c = u) s).
Proof.
  intros Hu Hq.
  destruct (char_cases u) as [(_ & Hnq & Ha)|[(_ & H & _)|(_ & H & _)]];
    try congruence.
  destruct (char_cases q) as [(_ & H & _)|[(_ & _ & Haq & _)|(_ & _ & H & _)]];
    try congruence.
  assert (∃ fsm h, compile [u; q] = (Ok fsm, h)) as (fsm & h & Hc).
  { apply compile_ok_iff. split; [done|]. by repeat constructor. }
  assert (no_consecutive_quantifiers [u; q] = true) as Hnc.
  { simpl. by rewrite Hnq, andb_false_r. }
  destruct (returns_total [u; q] fsm h s Hnc Hc) as [b Hb].
  exists b. split; [done|].
  assert (b = true ↔ returns [u; q] s true) as ->.
  { split; [by intros ->|]. intros Ht. by apply (returns_det [u; q] s). }
  rewrite (returns_lang [u; q] s Hnc) by eauto.
  rewrite items_of_cons2, Hq. simpl. split.
  - intros (s1 & s2 & -> & Hall & ->). rewrite app_nil_r.
    eapply Forall_impl; [exact Hall|]. intros c. apply accepts_unit_kind.
  - intros Hall. exists s, []. rewrite app_nil_r.
    split; [done|]. split; [|done].
    eapply Forall_impl; [exact Hall|]. intros c. apply accepts_unit_kind.
Qed.

(** C4: the matcher treats [PlusState] as it treats [StarState].
    (1) In [dfs], a repeat state of either kind tries its successors at the
    same index, consuming nothing: when the call at the repeat state returns
    and the search from one of its successors at the same index succeeds,
    the call returns [True]. A state that is neither a repeat state nor the
    termination state has no such move: it returns [True] only by consuming
    a character that it accepts.
    (2) [check_string] gives the same outcome on a heap and on the heap in
    which every [PlusState] is turned into a [StarState].
    (3) For every unit, the graph of the unit followed by + and the graph of
    the unit followed by * agree on every string at every depth of the
    stack; with a deep enough stack both return, and they return [True]
    exactly on the strings all of whose characters the unit accepts, the
    empty string among them.
    (4) When a pattern compiles, the pattern with every + turned into *
    compiles too, and the two graphs agree on every string.
    (5) The graph of a+ accepts the empty string, and rejects the string
    b. *)
Theorem plus_matches_like_star :
  (∀ depth s (h : heap) r o inner nxt i b,
     h !! r = Some o →
     cls o = StarState inner ∨ cls o = PlusState inner →
     nxt ∈ next_states o →
     fst (dfs depth s nxt i h) = Ok true →
     fst (dfs (S depth) s r i h) = Ok b → b = true) ∧
  (∀ depth s (h : heap) r o i,
     h !! r = Some o →
     is_Repeat (cls o) = false → is_Termination (cls o) = false →
     fst (dfs (S depth) s r i h) = Ok true →
     ∃ ch nxt, s !! i = Some ch ∧
               fst (check_self depth r ch h) = Ok true ∧
               nxt ∈ next_states o ∧
               fst (dfs depth s nxt (i + 1) h) = Ok true) ∧
  (∀ depth self s (h : heap),
     fst (check_string depth self s (plus_to_star h))
     = fst (check_string depth self s h)) ∧
  (∀ u, is_unit u = true →
     ∃ fsmP hP fsmS hS,
       compile [u; sym_plus] = (Ok fsmP, hP) ∧
       compile [u; sym_star] = (Ok fsmS, hS) ∧
       (∀ depth s,
          fst (check_string depth fsmP s hP)
          = fst (check_string depth fsmS s hS)) ∧
       (∀ s, ∃ b, returns [u; sym_plus] s b ∧ returns [u; sym_star] s b ∧
                  (b = true ↔ Forall (λ c, u = sym_dot ∨ c = u) s))) ∧
  (∀ p fsm (hP : heap),
     compile p = (Ok fsm, hP) →
     ∃ hS, compile (star_of <$> p) = (Ok fsm, hS) ∧
           ∀ depth s,
             fst (check_string depth fsm s hP)
             = fst (check_string depth fsm s hS)) ∧
  returns (py_str "a+") [] true ∧
  returns (py_str "a+") (py_str "b") false.
Proof.
  split; [|split; [|split; [|split; [|split; [|split]]]]].
  - intros depth s h r o inner nxt i b Ho Hcls Hin.
    rewrite !dfs_run. simpl. apply (dfs_ro_skip h depth s r o i nxt b Ho);
      [|done].
    by destruct Hcls as [-> | ->].
  - intros depth s h r o i Ho Hrep Hterm. rewrite dfs_run. simpl.
    intros Hdfs.
    destruct (dfs_ro_plain_consumes h depth s r o i Ho Hrep Hterm Hdfs)
      as (ch & nxt & Hch & Hok & Hin & Hnxt).
    exists ch, nxt. rewrite check_self_run, dfs_run. auto.
  - intros. rewrite !check_string_run. simpl.
    apply check_string_ro_plus_to_star.
  - intros u Hu.
    pose proof (compile_unit_quantifier u sym_plus Hu eq_refl) as HcP.
    pose proof (compile_unit_quantifier u sym_star Hu eq_refl) as HcS.
    eexists _, _, _, _. split; [exact HcP|]. split; [exact HcS|].
    assert (∀ depth s,
      fst (check_string depth (mkRegexFSM 0 3 0) s
             [mkState StartState [2]; mkState (unit_kind u) [2];
              mkState (repeat_kind sym_plus 1) [1; 3];
              mkState TerminationState []])
      = fst (check_string depth (mkRegexFSM 0 3 0) s
               [mkState StartState [2]; mkState (unit_kind u) [2];
                mkState (repeat_kind sym_star 1) [1; 3];
                mkState TerminationState []])) as Hsame.
    { intros depth s. rewrite !check_string_run. simpl.
      rewrite <-(check_string_ro_plus_to_star
                   [mkState StartState [2]; mkState (unit_kind u) [2];
                    mkState (repeat_kind sym_plus 1) [1; 3];
                    mkState TerminationState []]).
      rewrite <-(check_string_ro_plus_to_star
                   [mkState StartState [2]; mkState (unit_kind u) [2];
                    mkState (repeat_kind sym_star 1) [1; 3];
                    mkState TerminationState []]).
      f_equal. }
    split; [exact Hsame|].
    intros s.
    destruct (repeat_unit_returns u sym_star s Hu eq_refl)
      as (b & [N Hb] & Hiff).
    exists b. split; [|split; [by exists N|done]].
    exists N. intros depth Hd. specialize (Hb depth Hd).
    unfold matches in *. rewrite HcS in Hb. rewrite HcP.
    by rewrite Hsame.
  - intros p fsm hP Hc. destruct (compile_sim _ _ _ Hc) as (hS & HcS & Heq).
    exists hS. split; [done|]. intros depth s.
    rewrite !check_string_run. simpl.
    rewrite <-(check_string_ro_plus_to_star hP).
    rewrite <-(check_string_ro_plus_to_star hS).
    by rewrite Heq.
  - apply (returns_at 3). vm_compute. reflexivity.
  - apply (returns_at 3). vm_compute. reflexivity.
Qed.

Lemma plus_matches_like_star_witness :
  ∃ fsmP hP fsmS hS,
    compile [97%N; sym_plus] = (Ok fsmP, hP) ∧
    compile [97%N; sym_star] = (Ok fsmS, hS) ∧
    (∀ depth s,
       fst (check_string depth fsmP s hP)
       = fst (check_string depth fsmS s hS)) ∧
    (∀ s, ∃ b, returns [97%N; sym_plus] s b ∧ returns [97%N; sym_star] s b ∧
               (b = true ↔ Forall (λ c, 97%N = sym_dot ∨ c = 97%N) s)).
Proof.
  apply (proj1 (proj2 (proj2 (proj2 plus_matches_like_star))) 97%N).
  reflexivity.
Defined.
